(** * observability: meters and the ordered line scanner

    A shallow embedding of [meter.go] and [scanner.go] of package
    [observability], with the properties of the package's specification
    stated and proved over it.

    Conventions.  A [uint64] is a [Z] in [0, 2^64); arithmetic that can
    wrap is written with an explicit [mod 2^64].  A [[]byte] is a
    [list byte]; slice indices are [nat].  A method with a pointer
    receiver takes the receiver's value and returns the updated one. *)

From Stdlib Require Import ZArith List Bool Lia Arith PeanoNat Sorted.
From Stdlib Require Import Strings.Byte.
From Stdlib Require Strings.String.
Import ListNotations.

Definition bytes := list byte.

(** ** meter.go *)

Module meter.

Local Open Scope Z_scope.

(** [time.Time], as an instant counted from the zero [Time]. *)
Definition Time := Z.
Definition zeroTime : Time := 0.

Record MeterDescription := {
  name : String.string;
  explanation : String.string;
  cumulative : bool;
  describedAt : list Z
}.

(** [DescOption]: the only implementation is [functorOption]. *)
Definition DescOption := MeterDescription -> MeterDescription.

Definition apply (f : DescOption) (md : MeterDescription) : MeterDescription :=
  f md.

Definition Cumulative : DescOption :=
  fun md => {| name := name md; explanation := explanation md;
               cumulative := true; describedAt := describedAt md |}.

(** [DescribeMeter]; [callers] is what [runtime.Callers(2, _)] would
    write, of which one frame fits in [make([]uintptr, 1)]. *)
Definition DescribeMeter (callers : list Z) (nm explan : String.string)
    (opts : list DescOption) : MeterDescription :=
  let md := {| name := nm; explanation := explan; cumulative := false;
               describedAt := firstn 1 callers |} in
  fold_left (fun md opt => apply opt md) opts md.

(** The interface [Meter] has one implementation, [*scalarMeter], so
    its three methods are the functions [SampleAt], [Value] and
    [ResetAt] below, and a [setFunc] takes a [scalarMeter].  The package
    defines two [setFunc] values, [counterSet] and [gaugeSet]; a
    [scalarMeter] stores which one it was built with, and [call] is the
    call through that field. *)
Inductive setFunc := counterSetFn | gaugeSetFn.

Record scalarMeter := {
  md : MeterDescription;
  v : Z;
  t : Time;
  r : Time;
  f : setFunc
}.

Definition ResetAt (m : scalarMeter) (t0 : Time) : scalarMeter :=
  {| md := md m; v := 0; t := t0; r := t0; f := f m |}.

Definition Value (m : scalarMeter) : Time * Z := (t m, v m).

(** [counterSet]: [if _, old := m.Value(); v < old { m.ResetAt(t) }]. *)
Definition counterSet (m : scalarMeter) (t0 : Time) (v0 : Z) : scalarMeter :=
  let '(_, old) := Value m in
  if v0 <? old then ResetAt m t0 else m.

Definition gaugeSet (m : scalarMeter) (_ : Time) (_ : Z) : scalarMeter := m.

Definition call (fn : setFunc) : scalarMeter -> Time -> Z -> scalarMeter :=
  match fn with
  | counterSetFn => counterSet
  | gaugeSetFn => gaugeSet
  end.

(** [SampleAt]: [m.f(m, t, v); m.t = t; m.v = v]. *)
Definition SampleAt (m : scalarMeter) (t0 : Time) (v0 : Z) : scalarMeter :=
  let m1 := call (f m) m t0 v0 in
  let m2 := {| md := md m1; v := v m1; t := t0; r := r m1; f := f m1 |} in
  {| md := md m2; v := v0; t := t m2; r := r m2; f := f m2 |}.

(** [DefineCounter]; [now] is the result of [time.Now()]. *)
Definition DefineCounter (now : Time) (d : MeterDescription) : scalarMeter :=
  {| md := d; v := 0; t := zeroTime; r := now; f := counterSetFn |}.

(** [Origin] is [struct{}]. *)
Inductive Origin := mkOrigin.

(** What a call of [RegisterFunction] could touch: the origin, the
    meters the pointers in [ms] refer to (a store indexed by address),
    and the number of times the functor has run. *)
Record World := {
  origin : Origin;
  store : list scalarMeter;
  invocations : nat
}.

(** A nullary functor with effects on the world: each run is counted. *)
Definition functor := World -> World.

Definition run (fn : functor) (w : World) : World :=
  let w' := fn w in
  {| origin := origin w'; store := store w'; invocations := S (invocations w') |}.

(** [func (o *Origin) RegisterFunction(f func(), ms ...Meter) {}] *)
Definition RegisterFunction (fn : functor) (ms : list nat) (w : World) : World :=
  w.

End meter.

(** ** The parts of Go's [bytes] and [bufio] packages that [Scan] uses

    These follow the Go standard library ([bytes/bytes.go],
    [bytes/reader.go], [bufio/scan.go]), which [scanner.go] imports;
    they are no part of the package itself. *)

Module gobytes.

(** [bytes.Equal]. *)
Fixpoint Equal (a b : bytes) : bool :=
  match a, b with
  | [], [] => true
  | x :: a', y :: b' => Byte.eqb x y && Equal a' b'
  | _, _ => false
  end.

(** [bytes.IndexByte]: the index of the first [c] in [b], if any. *)
Fixpoint IndexByte (b : bytes) (c : byte) : option nat :=
  match b with
  | [] => None
  | x :: b' =>
      if Byte.eqb x c then Some O
      else match IndexByte b' c with
           | Some i => Some (S i)
           | None => None
           end
  end.

(** The slice expression [b[lo:hi]], for [lo <= hi <= len(b)]. *)
Definition slice (b : bytes) (lo hi : nat) : bytes :=
  firstn (hi - lo) (skipn lo b).

(** [copy(dst[at:], src)] for a [src] that fits. *)
Definition copyAt (dst : bytes) (at_ : nat) (src : bytes) : bytes :=
  firstn at_ dst ++ src ++ skipn (at_ + length src) dst.

(** [bytes.Reader]: the bytes [s] and the read position [i]. *)
Record Reader := { s : bytes; i : nat }.

Definition NewReader (b : bytes) : Reader := {| s := b; i := 0 |}.

(** [Reader.Reset]. *)
Definition Reset (_ : Reader) (b : bytes) : Reader := {| s := b; i := 0 |}.

Inductive ioerror := EOF.

(** [Reader.Read(b)] with [len(b) = n]: the bytes copied, the error,
    and the reader afterwards. *)
Definition Read (rd : Reader) (n : nat) : bytes * option ioerror * Reader :=
  if length (s rd) <=? i rd then ([], Some EOF, rd)
  else
    let chunk := firstn n (skipn (i rd) (s rd)) in
    (chunk, None, {| s := s rd; i := i rd + length chunk |}).

End gobytes.

Module bufio.

Import gobytes.

(** The errors a [Scanner] can hold when it reads from a [bytes.Reader]
    and splits with [ScanLines]. *)
Inductive error :=
| ioEOF | ErrTooLong | ErrAdvanceTooFar | ErrBadReadCount | ErrNoProgress.

Definition MaxScanTokenSize : nat := 64 * 1024.
Definition startBufSize : nat := 4096.
Definition maxConsecutiveEmptyReads : nat := 100.
Definition maxInt : Z := 2 ^ 63 - 1.

(** [bufio.Scanner].  The split function is [ScanLines], the default of
    [NewScanner], which never returns an error and never returns a token
    without advancing; the fields [done] and [empties], which only those
    two events change, are left out. *)
Record Scanner := {
  r : Reader;
  maxTokenSize : nat;
  token : option bytes;
  buf : bytes;
  start : nat;
  end_ : nat;
  err : option error
}.

Definition NewScanner (rd : Reader) : Scanner :=
  {| r := rd; maxTokenSize := MaxScanTokenSize; token := None;
     buf := []; start := 0; end_ := 0; err := None |}.

(** [Scanner.Buffer(buf, max)]: [s.buf = buf[0:cap(buf)]]; [b] is the
    backing array of [buf] up to its capacity. *)
Definition Buffer (sc : Scanner) (b : bytes) (max : nat) : Scanner :=
  {| r := r sc; maxTokenSize := max; token := token sc;
     buf := b; start := start sc; end_ := end_ sc; err := err sc |}.

(** [Scanner.Bytes]: the most recent token; a nil slice has no bytes. *)
Definition Bytes (sc : Scanner) : bytes :=
  match token sc with Some tk => tk | None => [] end.

Definition isErr (e : option error) : bool :=
  match e with Some _ => true | None => false end.

(** [setErr]: [if s.err == nil || s.err == io.EOF { s.err = err }]. *)
Definition setErr (sc : Scanner) (e : error) : Scanner :=
  match err sc with
  | None | Some ioEOF =>
      {| r := r sc; maxTokenSize := maxTokenSize sc; token := token sc;
         buf := buf sc; start := start sc; end_ := end_ sc; err := Some e |}
  | Some _ => sc
  end.

(** [advance(n)]; [n] is never negative here. *)
Definition advance (sc : Scanner) (n : nat) : bool * Scanner :=
  if end_ sc - start sc <? n then (false, setErr sc ErrAdvanceTooFar)
  else (true,
        {| r := r sc; maxTokenSize := maxTokenSize sc; token := token sc;
           buf := buf sc; start := start sc + n; end_ := end_ sc;
           err := err sc |}).

(** [dropCR] drops a terminal [\r] from the data. *)
Definition dropCR (data : bytes) : bytes :=
  if (0 <? length data) && Byte.eqb (nth (length data - 1) data x00) x0d
  then slice data 0 (length data - 1)
  else data.

(** [ScanLines]: the advance and the token (the error is always nil). *)
Definition ScanLines (data : bytes) (atEOF : bool) : nat * option bytes :=
  if atEOF && (length data =? 0) then (0, None)
  else
    match IndexByte data x0a with
    | Some i => (i + 1, Some (dropCR (slice data 0 i)))
    | None => if atEOF then (length data, Some (dropCR data)) else (0, None)
    end.

(** The read loop at the end of an iteration of [Scan]; [fuel] counts
    the reads left before [loop > maxConsecutiveEmptyReads]. *)
Fixpoint readLoop (fuel : nat) (sc : Scanner) : Scanner :=
  match fuel with
  | O => setErr sc ErrNoProgress
  | S k =>
      let '(chunk, e, rd) := Read (r sc) (length (buf sc) - end_ sc) in
      let n := length chunk in
      let sc := {| r := rd; maxTokenSize := maxTokenSize sc; token := token sc;
                   buf := buf sc; start := start sc; end_ := end_ sc;
                   err := err sc |} in
      if length (buf sc) - end_ sc <? n then setErr sc ErrBadReadCount
      else
        let sc := {| r := r sc; maxTokenSize := maxTokenSize sc;
                     token := token sc;
                     buf := copyAt (buf sc) (end_ sc) chunk;
                     start := start sc; end_ := end_ sc + n; err := err sc |} in
        match e with
        | Some EOF => setErr sc ioEOF
        | None => if 0 <? n then sc else readLoop k sc
        end
  end.

(** One iteration of the [for] loop of [Scan]: it returns from [Scan]
    or goes round again. *)
Inductive step := Return (ok : bool) (sc : Scanner) | Again (sc : Scanner).

(** The first half: see if a token can be had from what is buffered. *)
Definition splitStep (sc : Scanner) : step :=
  if (start sc <? end_ sc) || isErr (err sc) then
    let '(adv, tk) :=
      ScanLines (slice (buf sc) (start sc) (end_ sc)) (isErr (err sc)) in
    match advance sc adv with
    | (false, sc) => Return false sc
    | (true, sc) =>
        let sc := {| r := r sc; maxTokenSize := maxTokenSize sc; token := tk;
                     buf := buf sc; start := start sc; end_ := end_ sc;
                     err := err sc |} in
        match tk with
        | Some _ => Return true sc
        | None => Again sc
        end
    end
  else Again sc.

(** Shift the data to the beginning of the buffer. *)
Definition shift (sc : Scanner) : Scanner :=
  if (0 <? start sc)
     && ((end_ sc =? length (buf sc)) || (length (buf sc) / 2 <? start sc))
  then {| r := r sc; maxTokenSize := maxTokenSize sc; token := token sc;
          buf := copyAt (buf sc) 0 (slice (buf sc) (start sc) (end_ sc));
          start := 0; end_ := end_ sc - start sc; err := err sc |}
  else sc.

(** Resize the buffer, when it is full and may still grow. *)
Definition resize (sc : Scanner) : Scanner :=
  let newSize := length (buf sc) * 2 in
  let newSize := if newSize =? 0 then startBufSize else newSize in
  let newSize := Nat.min newSize (maxTokenSize sc) in
  let newBuf := copyAt (repeat x00 newSize) 0
                       (slice (buf sc) (start sc) (end_ sc)) in
  {| r := r sc; maxTokenSize := maxTokenSize sc; token := token sc;
     buf := newBuf; start := 0; end_ := end_ sc - start sc; err := err sc |}.

(** The second half: give up, or make room and read more data. *)
Definition fillStep (sc : Scanner) : step :=
  if isErr (err sc) then
    Return false
      {| r := r sc; maxTokenSize := maxTokenSize sc; token := token sc;
         buf := buf sc; start := 0; end_ := 0; err := err sc |}
  else
    let sc := shift sc in
    if end_ sc =? length (buf sc) then
      if (maxTokenSize sc <=? length (buf sc))
         || (maxInt / 2 <? Z.of_nat (length (buf sc)))%Z
      then Return false (setErr sc ErrTooLong)
      else Again (readLoop (S maxConsecutiveEmptyReads) (resize sc))
    else Again (readLoop (S maxConsecutiveEmptyReads) sc).

Definition scanIter (sc : Scanner) : step :=
  match splitStep sc with
  | Return ok sc => Return ok sc
  | Again sc => fillStep sc
  end.

Fixpoint scanLoop (fuel : nat) (sc : Scanner) : option (bool * Scanner) :=
  match fuel with
  | O => None
  | S k =>
      match scanIter sc with
      | Return ok sc => Some (ok, sc)
      | Again sc => scanLoop k sc
      end
  end.

(** The bytes the reader has not handed out yet. *)
Definition unread (sc : Scanner) : nat := length (s (r sc)) - i (r sc).

(** [Scanner.Scan].  An iteration that goes round again has read a byte
    or set the error, so [unread + 2] iterations are enough
    ([Scan_refines]). *)
Definition Scan (sc : Scanner) : bool * Scanner :=
  match scanLoop (unread sc + 2) sc with
  | Some res => res
  | None => (false, sc)
  end.

End bufio.

(** ** scanner.go *)

Module scanner.

Import gobytes.

(** A [lineFunc] pairs a name with a callback.  The callback is a Go
    closure whose effects are its own; what [Scan] does with it is call
    it, and the model records each call ([Call]) in the order made.  The
    position of a [lineFunc] in [lineFuncs] stands for its [f]. *)
Record lineFunc := { name : bytes }.

Record BufferScanner := {
  lineReader : Reader;
  lineBuf : bytes;
  lineFuncs : list lineFunc;
  fields : list bytes
}.

(** [NewBufferScanner]; [buf] is the backing array of the argument up
    to its capacity, which is what [lineBuf[:cap(lineBuf)]] denotes. *)
Definition NewBufferScanner (buf : bytes) (lfs : list lineFunc) : BufferScanner :=
  {| lineReader := NewReader []; lineBuf := buf; lineFuncs := lfs;
     fields := [] |}.

Definition uint64 (z : Z) : Z := (z mod 2 ^ 64)%Z.

(** The value of a byte, and [uint64(c - '0')] with the subtraction
    wrapping in [uint8]. *)
Definition byteval (c : byte) : Z := Z.of_N (Byte.to_N c).

Definition digit (c : byte) : Z := ((byteval c - byteval x30) mod 256)%Z.

(** [naiveAtoi]. *)
Definition naiveAtoi (b : bytes) : Z :=
  fold_left (fun rv c => uint64 (uint64 (rv * 10) + digit c)) b 0%Z.

(** [asciiSpace]: the table has a [1] at the six white space bytes. *)
Definition asciiSpace (c : byte) : Z :=
  match c with
  | x09 | x0a | x0b | x0c | x0d | x20 => 1%Z
  | _ => 0%Z
  end.

Definition at_ (s : bytes) (i : nat) : byte := nth i s x00.

(** [for i < len(s) && asciiSpace[s[i]] != 0 { i++ }] *)
Fixpoint skipSpaces (fuel : nat) (s : bytes) (i : nat) : nat :=
  match fuel with
  | O => i
  | S k =>
      if (i <? length s) && negb (asciiSpace (at_ s i) =? 0)%Z
      then skipSpaces k s (S i)
      else i
  end.

(** The main loop of [asciiByteFields]; it returns [fieldStart] and [a]. *)
Fixpoint fieldsLoop (fuel : nat) (s : bytes) (fieldStart i : nat)
    (a : list bytes) : nat * list bytes :=
  match fuel with
  | O => (fieldStart, a)
  | S k =>
      if i <? length s then
        if (asciiSpace (at_ s i) =? 0)%Z then fieldsLoop k s fieldStart (S i) a
        else
          let a := a ++ [slice s fieldStart i] in
          let i := skipSpaces (length s) s (S i) in
          fieldsLoop k s i i a
      else (fieldStart, a)
  end.

(** [asciiByteFields].  Every iteration of either loop increments [i],
    so [len(s)] iterations are enough. *)
Definition asciiByteFields (s : bytes) (a : list bytes) : list bytes :=
  let i := skipSpaces (length s) s 0 in
  let '(fieldStart, a) := fieldsLoop (length s) s i i a in
  if fieldStart <? length s then a ++ [slice s fieldStart (length s)]
  else a.

(** [BufferScanner.Fields]: the scratch [bs.fields], cut to length zero,
    is refilled and returned. *)
Definition Fields (bs : BufferScanner) (line : bytes) : list bytes * BufferScanner :=
  let flds := asciiByteFields line (firstn 0 (fields bs)) in
  (flds, {| lineReader := lineReader bs; lineBuf := lineBuf bs;
            lineFuncs := lineFuncs bs; fields := flds |}).

(** A call [f.f(fields[1:])]: which [lineFunc] fired, on which of the
    lines the scanner delivered (counted from 0, and the line itself),
    and the fields passed. *)
Record Call := { reg : nat; lineNo : nat; line : bytes; args : list bytes }.

(** What the loops of [Scan] carry: the local [bufio.Scanner], the
    [BufferScanner], the number of lines delivered so far and the calls
    made so far. *)
Record loopState := {
  sc : bufio.Scanner;
  bs : BufferScanner;
  nlines : nat;
  calls : list Call
}.

(** The bytes not yet delivered as lines: buffered or unread. *)
Definition pending (sc : bufio.Scanner) : nat :=
  (bufio.end_ sc - bufio.start sc) + bufio.unread sc.

(** [for scanner.Scan() { ... }] for the [lineFunc] at position [k]. *)
Fixpoint forScan (fuel : nat) (k : nat) (f : lineFunc) (st : loopState) : loopState :=
  match fuel with
  | O => st
  | S fuel' =>
      let '(ok, sc1) := bufio.Scan (sc st) in
      if ok then
        let '(flds, bs1) := Fields (bs st) (bufio.Bytes sc1) in
        let st1 := {| sc := sc1; bs := bs1; nlines := S (nlines st);
                      calls := calls st |} in
        if (1 <? length flds) && Equal (name f) (nth 0 flds []) then
          {| sc := sc1; bs := bs1; nlines := S (nlines st);
             calls := calls st ++ [{| reg := k; lineNo := nlines st;
                                      line := bufio.Bytes sc1;
                                      args := skipn 1 flds |}] |}
        else forScan fuel' k f st1
      else {| sc := sc1; bs := bs st; nlines := nlines st; calls := calls st |}
  end.

(** [for _, f := range bs.lineFuncs { ... }], from position [k] on.
    Every line delivered takes at least one byte out of [pending], so
    [pending + 1] turns of the inner loop are enough
    ([rangeLineFuncsWith_same]). *)
Fixpoint rangeLineFuncs (k : nat) (fs : list lineFunc) (st : loopState) : loopState :=
  match fs with
  | [] => st
  | f :: fs' =>
      rangeLineFuncs (S k) fs' (forScan (pending (sc st) + 1) k f st)
  end.

(** The first three statements of [Scan]: the reader is reset to [b]
    and a new [bufio.Scanner] is given the line buffer, which it may
    not outgrow. *)
Definition startScan (bs0 : BufferScanner) (b : bytes) : loopState :=
  let rd := Reset (lineReader bs0) b in
  let bs1 := {| lineReader := rd; lineBuf := lineBuf bs0;
                lineFuncs := lineFuncs bs0; fields := fields bs0 |} in
  let sc0 := bufio.Buffer (bufio.NewScanner rd) (lineBuf bs1)
                          (length (lineBuf bs1)) in
  {| sc := sc0; bs := bs1; nlines := 0; calls := [] |}.

Definition ScanState (bs0 : BufferScanner) (b : bytes) : loopState :=
  rangeLineFuncs 0 (lineFuncs bs0) (startScan bs0 b).

(** [BufferScanner.Scan]: the scanner afterwards and the calls made.
    [Scan] has no result, and the [bufio.Scanner] with its error is
    local to it.  The scanner's buffer is the backing array of
    [bs.lineBuf] all along, since a buffer of [maxTokenSize] bytes is
    never replaced ([Scan_keeps_capacity]). *)
Definition Scan (bs0 : BufferScanner) (b : bytes) : BufferScanner * list Call :=
  let st := ScanState bs0 b in
  ({| lineReader := bufio.r (sc st); lineBuf := bufio.buf (sc st);
      lineFuncs := lineFuncs (bs st); fields := fields (bs st) |},
   calls st).

End scanner.

(** ** Inputs used in examples *)

Module examples.

Import gobytes scanner.
Import String.StringSyntax.
Local Open Scope string_scope.

Definition NL : byte := x0a.

(** The bytes of a string literal. *)
Definition B (s : String.string) : bytes := String.list_byte_of_string s.

Definition lf (s : String.string) : lineFunc := {| name := B s |}.
Definition lf_A : lineFunc := lf "A".
Definition lf_B : lineFunc := lf "B".

(** Lines, each terminated by a newline. *)
Definition text (ls : list String.string) : bytes :=
  flat_map (fun l => B l ++ [NL]) ls.

(** A line buffer of capacity [n], as [make([]byte, 0, n)] gives. *)
Definition mkbuf (n : nat) : bytes := repeat x00 n.

(** The largest [uint64], and the value of the benchmark. *)
Definition maxDigits : bytes := B "18446744073709551615".
Definition val : bytes := B "8475589".
Definition twoTo64 : bytes := B "18446744073709551616".

(** A line with white space of several kinds around three fields. *)
Definition spaced : bytes :=
  [x20; x09] ++ B "ab" ++ [x0b; x0c] ++ B "c" ++ [x0d] ++ B "d" ++ [x20].
Definition spacedFields : list bytes := [B "ab"; B "c"; B "d"].

(** The description every example meter carries. *)
Definition someDesc : meter.MeterDescription :=
  meter.DescribeMeter [] String.EmptyString String.EmptyString
    [meter.Cumulative].

(** A counter defined at time 0 and sampled with 100 at time 1. *)
Definition sampled100 : meter.scalarMeter :=
  meter.SampleAt (meter.DefineCounter 0%Z someDesc) 1%Z 100%Z.

(** A gauge that holds 100, sampled at time 1 and last reset at time 0. *)
Definition gauge100 : meter.scalarMeter :=
  {| meter.md := someDesc; meter.v := 100%Z; meter.t := 1%Z;
     meter.r := 0%Z; meter.f := meter.gaugeSetFn |}.

(** Scanners with a line buffer of [n] bytes. *)
Definition bsA (n : nat) : BufferScanner := NewBufferScanner (mkbuf n) [lf "A"].
Definition bsAB (n : nat) : BufferScanner :=
  NewBufferScanner (mkbuf n) [lf "A"; lf "B"].

(** A line of 12 bytes, and what a buffer of 8 bytes holds of it. *)
Definition longLine : bytes := B "B 1234567890".
Definition longInput : bytes := text ["B 1234567890"].
Definition cutLine : bytes := B "B 123456".
Definition cutField : bytes := B "123456".

(** A line whose only field is the name, before a line that matches. *)
Definition bareInput : bytes := text ["A"; "A 1"].

(** Inputs with the lines in order, out of order, with a line nobody
    asked for, and with a line missing. *)
Definition inOrder : bytes := text ["A 1"; "B 2"].
Definition outOfOrder : bytes := text ["B 2"; "A 1"].
Definition withExtra : bytes := text ["A 1"; "X 9"; "B 2"].
Definition onlyA : bytes := text ["A 1"].
Definition lineA : bytes := B "A 1".
Definition lineB : bytes := B "B 2".
Definition lineX : bytes := B "X 9".

(** The [lineFunc] and the input of [TestScanner], and the call made. *)
Definition lf_foo : lineFunc := lf "foo".
Definition fooBar : bytes := text ["foo 123"; "bar 456"].
Definition fooCall : Call :=
  {| reg := 0; lineNo := 0; line := B "foo 123"; args := [B "123"] |}.
Definition one : bytes := B "1".
Definition two : bytes := B "2".

(** The input and the [lineFunc]s of [BenchmarkScannerXfs], and the
    lines its eighteen calls are made on. *)
Definition xfsLiteral : bytes :=
  text ["extent_alloc 2850797 1422306569 2208846 750744525";
        "abt 0 0 0 0";
        "blk_map 4013747586 986817971 310235996 4126710 164562762 1017458437 0";
        "bmbt 0 0 0 0";
        "dir 17411309 155380624 155285147 119241322";
        "trans 0 3129811657 1969";
        "ig 163038204 160993353 482 2044851 0 2008515 1783442";
        "log 664378396 1060789568 2 665530550 665521925";
        "push_ail 3134332303 0 24612870 3615919 0 126217 16647 2765770 0 25742";
        "xstrat 626433 0";
        "rw 1344496242 2324555337";
        "attr 864146844 5624 16406 27978";
        "icluster 2314776 819411 2701964";
        "vnodes 36336 0 0 0 156574971 156574971 156574971 0";
        "buf 1423557008 1549457 1422027046 1309954 38676 1529963 0 1590113 29137";
        "abtb2 5079763 38135146 455605 450823 149 147 18549 12399 2368 3132 197 190 346 337 184916757";
        "abtc2 9533096 73949789 4659713 4655173 393 391 4873 937 2431 2651 486 477 879 868 1090495113";
        "bmbt2 2086454 15066211 740201 719110 2 0 4198 768 3348 4196 92 11 94 11 8735550";
        "ibt2 615194355 1456409582 12439 10932 0 0 2850810 36928 543 22 8 0 8 0 1582374";
        "fibt2 0 0 0 0 0 0 0 0 0 0 0 0 0 0 0";
        "rmapbt 0 0 0 0 0 0 0 0 0 0 0 0 0 0 0";
        "refcntbt 0 0 0 0 0 0 0 0 0 0 0 0 0 0 0";
        "qm 0 0 0 0 0 0 0 0";
        "xpc 5588678254592 20036891491898 18802600680845";
        "debug 0"].
Definition xfsLineFuncs : list lineFunc :=
  [lf "extent_alloc";
   lf "blk_map";
   lf "dir";
   lf "trans";
   lf "ig";
   lf "log";
   lf "push_ail";
   lf "xstrat";
   lf "rw";
   lf "attr";
   lf "icluster";
   lf "vnodes";
   lf "buf";
   lf "abtb2";
   lf "abtc2";
   lf "bmbt2";
   lf "ibt2";
   lf "xpc"].

Definition xfsLineNos : list nat :=
  [0; 2; 4; 5; 6; 7; 8; 9; 10; 11; 12; 13; 14; 15; 16; 17; 18; 23]%nat.

End examples.

(** ** Reference definitions the properties are stated against *)

Module reference.

Import scanner.
Local Open Scope Z_scope.

(** An ASCII digit, [0] to [9]. *)
Definition IsDigit (c : byte) : Prop := 48 <= byteval c <= 57.

Definition isDigit (c : byte) : bool :=
  (48 <=? byteval c) && (byteval c <=? 57).

(** The number a string of decimal digits denotes, without bound. *)
Definition decimalFrom (n : Z) (b : bytes) : Z :=
  fold_left (fun n c => n * 10 + (byteval c - 48)) b n.

Definition decimal (b : bytes) : Z := decimalFrom 0 b.

(** A validating parser of unsigned decimals, after
    [strconv.ParseUint(s, 10, 64)]: it rejects the empty string and any
    byte that is not a digit, and reports a value that does not fit. *)
Inductive parsed := Ok (n : Z) | ErrSyntax | ErrRange.

Definition maxVal : Z := 2 ^ 64 - 1.
Definition cutoff : Z := maxVal / 10 + 1.

Fixpoint parseDigits (b : bytes) (n : Z) : parsed :=
  match b with
  | [] => Ok n
  | c :: b' =>
      if isDigit c then
        if cutoff <=? n then ErrRange
        else
          let n10 := uint64 (n * 10) in
          let n1 := uint64 (n10 + digit c) in
          if (n1 <? n10) || (maxVal <? n1) then ErrRange
          else parseDigits b' n1
      else ErrSyntax
  end.

Definition ParseUint (b : bytes) : parsed :=
  match b with
  | [] => ErrSyntax
  | _ => parseDigits b 0
  end.

(** White space is exactly tab, newline, vertical tab, form feed,
    carriage return and space. *)
Definition IsSpace (c : byte) : Prop :=
  c = x09 \/ c = x0a \/ c = x0b \/ c = x0c \/ c = x0d \/ c = x20.

Definition NonSpace (c : byte) : Prop := ~ IsSpace c.

(** A span is empty or begins with a byte that satisfies [P]. *)
Definition startsWith (P : byte -> Prop) (l : bytes) : Prop :=
  match l with
  | [] => True
  | c :: _ => P c
  end.

(** [Runs s fs]: [fs] is the sequence of maximal runs of bytes of [s]
    that are not white space, from left to right.  The first run is what
    follows the leading white space up to the next white space or the
    end; the others are the runs of the rest. *)
Inductive Runs : bytes -> list bytes -> Prop :=
| Runs_none (ws : bytes) :
    Forall IsSpace ws -> Runs ws []
| Runs_more (ws fld rest : bytes) (fs : list bytes) :
    Forall IsSpace ws ->
    fld <> [] ->
    Forall NonSpace fld ->
    startsWith IsSpace rest ->
    Runs rest fs ->
    Runs (ws ++ fld ++ rest) (fld :: fs).

(** *** Line reading, as seen from outside [bufio.Scanner]

    What is left to read is a span [R].  With a buffer of [C] bytes the
    scanner is in one of three conditions between two calls of [Scan]:
    [Open R], nothing has gone wrong and [R] is still to be delivered;
    [Failed R], the line at the head of [R] did not fit and the error is
    set, with the first [C] bytes of [R] still in the buffer;
    [Stopped], the error is set and the buffer is empty. *)
Inductive reader := Open (R : bytes) | Failed (R : bytes) | Stopped.

(** One call of [Scan]: the line delivered, if any, and the condition
    afterwards.  A line is delivered when its newline is among the first
    [C] bytes left, or when fewer than [C] bytes are left and none is a
    newline. *)
Definition nextLine (C : nat) (a : reader) : option bytes * reader :=
  match a with
  | Open R =>
      if (C =? 0)%nat then (None, Stopped)
      else
        match R with
        | [] => (None, Stopped)
        | _ =>
            match gobytes.IndexByte (firstn C R) x0a with
            | Some i =>
                (Some (bufio.dropCR (firstn i R)), Open (skipn (S i) R))
            | None =>
                if (length R <? C)%nat then (Some (bufio.dropCR R), Stopped)
                else (None, Failed R)
            end
        end
  | Failed R => (Some (bufio.dropCR (firstn C R)), Stopped)
  | Stopped => (None, Stopped)
  end.

(** The buffered bytes and the bytes not read yet. *)
Definition window (sc : bufio.Scanner) : bytes :=
  gobytes.slice (bufio.buf sc) (bufio.start sc) (bufio.end_ sc).

Definition unreadBytes (sc : bufio.Scanner) : bytes :=
  skipn (gobytes.i (bufio.r sc)) (gobytes.s (bufio.r sc)).

(** [Rep C sc a]: the scanner [sc], whose buffer has [C] bytes and may
    not grow, is in condition [a]. *)
Definition Rep (C : nat) (sc : bufio.Scanner) (a : reader) : Prop :=
  length (bufio.buf sc) = C /\
  bufio.maxTokenSize sc = C /\
  (bufio.start sc <= bufio.end_ sc <= C)%nat /\
  match a with
  | Open R => bufio.err sc = None /\ R = window sc ++ unreadBytes sc
  | Failed R =>
      bufio.err sc = Some bufio.ErrTooLong /\
      (0 < C)%nat /\ bufio.start sc = 0%nat /\ bufio.end_ sc = C /\
      window sc = firstn C R /\ (C <= length R)%nat /\
      gobytes.IndexByte (firstn C R) x0a = None
  | Stopped => bufio.err sc <> None /\ bufio.start sc = bufio.end_ sc
  end.

(** How many lines can still be delivered, at most. *)
Definition linesLeft (a : reader) : nat :=
  match a with
  | Open R => length R
  | Failed _ => 1
  | Stopped => 0
  end.

(** The lines a scanner in condition [a] delivers from now on, over as
    many calls of [Scan] as it takes; a call that fails delivers none,
    and the calls after it deliver what [nextLine] says.  [bound a]
    calls are enough ([linesFrom_enough]). *)
Fixpoint linesFrom (fuel : nat) (C : nat) (a : reader) : list bytes :=
  match fuel with
  | O => []
  | S n =>
      match nextLine C a with
      | (Some tk, a') => tk :: linesFrom n C a'
      | (None, Failed R) => linesFrom n C (Failed R)
      | (None, _) => []
      end
  end.

Definition bound (a : reader) : nat :=
  match a with
  | Open R => length R + 2
  | Failed _ => 1
  | Stopped => 0
  end.

Definition linesOf (C : nat) (a : reader) : list bytes :=
  linesFrom (bound a) C a.

(** The lines delivered from the input [b] through a buffer of [C]
    bytes. *)
Definition delivered (C : nat) (b : bytes) : list bytes := linesOf C (Open b).

End reference.

(** ** Invariants and abbreviations used in the proofs *)

Module invariants.

Import gobytes bufio scanner reference.

(** Two scanners that differ in the last token only. *)
Definition sameButToken (sc1 sc2 : Scanner) : Prop :=
  r sc1 = r sc2 /\ maxTokenSize sc1 = maxTokenSize sc2 /\
  buf sc1 = buf sc2 /\ start sc1 = start sc2 /\ end_ sc1 = end_ sc2 /\
  err sc1 = err sc2.

(** The scanner at the end of the input, inside [Scan]: the error is
    [io.EOF] and the buffer holds all that is left, [R], which is short
    of [C] bytes and has no newline. *)
Definition AtEOF (C : nat) (sc : Scanner) (R : bytes) : Prop :=
  length (buf sc) = C /\ maxTokenSize sc = C /\
  start sc <= end_ sc <= C /\
  err sc = Some ioEOF /\ window sc = R /\ length R < C /\
  IndexByte R x0a = None.

(** What [Scan] is to return for a scanner in condition [a]: whether a
    line is delivered, which, and the condition afterwards. *)
Definition agrees (C : nat) (a : reader) (ok : bool) (sc' : Scanner) : Prop :=
  Rep C sc' (snd (nextLine C a)) /\
  match fst (nextLine C a) with
  | Some tk => ok = true /\ token sc' = Some tk
  | None => ok = false
  end.

(** What [asciiByteFields] does after its main loop. *)
Definition lastField (s : bytes) (res : nat * list bytes) : list bytes :=
  let '(fieldStart, a) := res in
  if fieldStart <? length s then a ++ [slice s fieldStart (length s)] else a.

(** The state after a line has been delivered and found not to match. *)
Definition nextState (st : loopState) (sc1 : bufio.Scanner) : loopState :=
  {| sc := sc1; bs := snd (Fields (bs st) (bufio.Bytes sc1));
     nlines := S (nlines st); calls := calls st |}.

(** The call made when the line just delivered matches. *)
Definition callOn (k : nat) (st : loopState) (sc1 : bufio.Scanner) : Call :=
  {| reg := k; lineNo := nlines st; line := bufio.Bytes sc1;
     args := skipn 1 (asciiByteFields (bufio.Bytes sc1) []) |}.

(** Whether a line matches a name. *)
Definition matches (nm : bytes) (ln : bytes) : bool :=
  (1 <? length (asciiByteFields ln [])) &&
  Equal nm (nth 0 (asciiByteFields ln []) []).

(** What a call records about the line it was made on. *)
Definition fromLine (nm : bytes) (c : Call) : Prop :=
  2 <= length (asciiByteFields (line c) []) /\
  nth 0 (asciiByteFields (line c) []) [] = nm /\
  args c = skipn 1 (asciiByteFields (line c) []).

(** [c1] is a call for an earlier [lineFunc] on an earlier line. *)
Definition before (c1 c2 : Call) : Prop :=
  reg c1 < reg c2 /\ lineNo c1 < lineNo c2.

(** The calls made so far, when the [lineFunc]s before position [k]
    have been dealt with and [n] lines have been delivered. *)
Definition orderly (lfs : list lineFunc) (k n : nat) (cs : list Call) : Prop :=
  StronglySorted before cs /\
  Forall (fun c => reg c < k /\ lineNo c < n /\
                   exists f, nth_error lfs (reg c) = Some f /\
                             fromLine (name f) c) cs.

(** [tracks C b st]: the scanner of [st] is in some condition [a] of
    the line reader, the lines delivered so far followed by those to
    come are the lines delivered from [b], and every call was made on
    the line whose number it carries. *)
Definition tracks (C : nat) (b : bytes) (st : loopState) : Prop :=
  exists a seen,
    Rep C (sc st) a /\
    length seen = nlines st /\
    delivered C b = seen ++ linesOf C a /\
    Forall (fun c => nth_error seen (lineNo c) = Some (line c)) (calls st).

(** The state when the search for the [lineFunc] at position [k]
    begins. *)
Definition stateBefore (bs0 : BufferScanner) (b : bytes) (k : nat) : loopState :=
  rangeLineFuncs 0 (firstn k (lineFuncs bs0)) (startScan bs0 b).

(** The outer loop with [extra] more turns allowed to each search. *)
Fixpoint rangeLineFuncsWith (extra : nat) (k : nat) (fs : list lineFunc)
    (st : loopState) : loopState :=
  match fs with
  | [] => st
  | f :: fs' =>
      rangeLineFuncsWith extra (S k) fs'
        (forScan (pending (sc st) + 1 + extra) k f st)
  end.

End invariants.

(** ** xfs.go *)

Module xfs.

Import meter.
Import String.StringSyntax.
Local Open Scope string_scope.

(** The package-level descriptions.  Each is built when the package is
    initialised; [callers] is what [runtime.Callers] reports there. *)
Definition xfsExtentAllocxDesc (callers : list Z) : MeterDescription :=
  DescribeMeter callers
    "/xfs/extent/extents_allocated"
    "Number of extents allocated over all XFS filesystems."
    [Cumulative].

Definition xfsExtentAllocbDesc (callers : list Z) : MeterDescription :=
  DescribeMeter callers
    "/xfs/extent/blocks_allocated"
    "Number of blocks allocated over all XFS filesystems."
    [Cumulative].

Definition xfsDirCreateDesc (callers : list Z) : MeterDescription :=
  DescribeMeter callers
    "/xfs/dir/created"
    "Number of times a new directory entry was created in XFS filesystems."
    [Cumulative].

Definition xfsReadCallsDesc (callers : list Z) : MeterDescription :=
  DescribeMeter callers
    "/xfs/reads"
    "Number of reads of files in XFS filesystems."
    [Cumulative].

Definition xfsWriteCallsDesc (callers : list Z) : MeterDescription :=
  DescribeMeter callers
    "/xfs/writes"
    "Number of writes to files in XFS filesystems."
    [Cumulative].

Definition xfsXPCReadBytesDesc (callers : list Z) : MeterDescription :=
  DescribeMeter callers
    "/xfs/bytes_read"
    (String.append "Number of bytes read from files in XFS filesystems. It can be "
       (String.append "used in conjunction with `/xfs/reads` to calculate the average "
          "size of the read operations to files in XFS filesystems."))
    [Cumulative].

Definition xfsXPCWriteBytesDesc (callers : list Z) : MeterDescription :=
  DescribeMeter callers
    "/xfs/bytes_written"
    (String.append "Number of bytes written to "
       (String.append "files in XFS filesystems. It can be used in conjunction with "
          (String.append "`/xfs/writes` to calculate the average size of the "
             "write operations to files in XFS filesystems.")))
    [Cumulative].

(** The seven descriptions, in the order of the file. *)
Definition descriptions (callers : list Z) : list MeterDescription :=
  [xfsExtentAllocxDesc callers; xfsExtentAllocbDesc callers;
   xfsDirCreateDesc callers; xfsReadCallsDesc callers;
   xfsWriteCallsDesc callers; xfsXPCReadBytesDesc callers;
   xfsXPCWriteBytesDesc callers].

(** The prefix all the names share. *)
Definition xfsPrefix : String.string := "/xfs/".

End xfs.

(** ** Sequences of operations on a meter *)

Module meter_ops.

Import meter.
Local Open Scope Z_scope.

(** The two ways a caller changes a meter. *)
Inductive op := Sample (t0 : Time) (v0 : Z) | Reset (t0 : Time).

Definition step (m : scalarMeter) (o : op) : scalarMeter :=
  match o with
  | Sample t0 v0 => SampleAt m t0 v0
  | Reset t0 => ResetAt m t0
  end.

Definition runOps (m : scalarMeter) (ops : list op) : scalarMeter :=
  fold_left step ops m.

(** [SampleAt] with each sample of a list in turn. *)
Definition sampleAll (m : scalarMeter) (l : list (Time * Z)) : scalarMeter :=
  fold_left (fun m s => SampleAt m (fst s) (snd s)) l m.

(** No sample of the list is below the one before it, the first being
    compared with [v0]. *)
Fixpoint ascending (v0 : Z) (l : list (Time * Z)) : Prop :=
  match l with
  | [] => True
  | s :: l' => v0 <= snd s /\ ascending (snd s) l'
  end.

(** The value of the last sample of a list, [v0] for the empty list. *)
Definition lastValue (v0 : Z) (l : list (Time * Z)) : Z :=
  snd (last l (0, v0)).

(** A [uint64]. *)
Definition isUint64 (z : Z) : Prop := 0 <= z < 2 ^ 64.

End meter_ops.

(** ** scanner_test.go: the other parsers of the benchmarks *)

Module bench.

Import scanner.
Local Open Scope Z_scope.

(** [pow], the powers of ten from [10^19] down to [1]. *)
Definition pow : list Z :=
  [10000000000000000000; 1000000000000000000; 100000000000000000;
   10000000000000000; 1000000000000000; 100000000000000; 10000000000000;
   1000000000000; 100000000000; 10000000000; 1000000000; 100000000;
   10000000; 1000000; 100000; 10000; 1000; 100; 10; 1].

(** [pow[o]] for an [int] index: outside the array the program panics,
    which is [None] here. *)
Definition powAt (o : Z) : option Z :=
  if (0 <=? o) && (o <? Z.of_nat (length pow)) then nth_error pow (Z.to_nat o)
  else None.

(** [for _, c := range b { rv += pow[o] * uint64(c-'0'); o++ }] *)
Fixpoint powLoop (b : bytes) (o rv : Z) : option Z :=
  match b with
  | [] => Some rv
  | c :: b' =>
      match powAt o with
      | None => None
      | Some p => powLoop b' (o + 1) (uint64 (rv + uint64 (p * digit c)))
      end
  end.

(** [powTableAtoi]; [o := len(pow) - len(b)] may be negative. *)
Definition powTableAtoi (b : bytes) : option Z :=
  powLoop b (Z.of_nat (length pow) - Z.of_nat (length b)) 0.

(** [pow[o : o+4]]: the slice expression panics unless
    [0 <= o] and [o+4 <= len(pow)]. *)
Definition powSlice4 (o : Z) : option (Z * Z * Z * Z) :=
  if (0 <=? o) && (o + 4 <=? Z.of_nat (length pow)) then
    match powAt o, powAt (o + 1), powAt (o + 2), powAt (o + 3) with
    | Some p0, Some p1, Some p2, Some p3 => Some (p0, p1, p2, p3)
    | _, _, _, _ => None
    end
  else None.

(** [powTableUnrolled4]: four bytes at a time while four are left,
    then the rest one by one. *)
Fixpoint unrolledLoop (b : bytes) (o rv : Z) : option Z :=
  match b with
  | c0 :: c1 :: c2 :: c3 :: b' =>
      match powSlice4 o with
      | None => None
      | Some (p0, p1, p2, p3) =>
          let r1 := uint64 (p0 * digit c0) in
          let r2 := uint64 (p1 * digit c1) in
          let r3 := uint64 (p2 * digit c2) in
          let r4 := uint64 (p3 * digit c3) in
          unrolledLoop b' (o + 4)
            (uint64 (rv + uint64 (uint64 (uint64 (r1 + r2) + r3) + r4)))
      end
  | _ => powLoop b o rv
  end.

Definition powTableUnrolled4 (b : bytes) : option Z :=
  unrolledLoop b (Z.of_nat (length pow) - Z.of_nat (length b)) 0.

End bench.

(** ** What [naiveAtoi] computes on any span *)

Module atoi_spec.

Import scanner.
Local Open Scope Z_scope.

(** The value of a span read as a numeral in base ten whose digits are
    [c - '0'] taken in [uint8], without bound. *)
Fixpoint value (b : bytes) : Z :=
  match b with
  | [] => 0
  | c :: b' => digit c * 10 ^ Z.of_nat (length b') + value b'
  end.

(** The modulus of [uint64] arithmetic. *)
Definition M : Z := 2 ^ 64.

End atoi_spec.

(** ** Putting fields together again *)

Module fields_spec.

Import scanner.

(** The fields with one space between each two. *)
Fixpoint joinFields (fs : list bytes) : bytes :=
  match fs with
  | [] => []
  | fld :: fs' =>
      match fs' with
      | [] => fld
      | _ => fld ++ x20 :: joinFields fs'
      end
  end.

(** A byte that [asciiSpace] does not mark. *)
Definition notSpace (c : byte) : bool := (asciiSpace c =? 0)%Z.

End fields_spec.

(** ** What [Scan] computes, in terms of lines *)

Module scan_spec.

Import gobytes scanner reference invariants.

(** The call for the [lineFunc] at position [k] on the line [ln],
    which is line number [n]. *)
Definition callFor (k n : nat) (ln : bytes) : Call :=
  {| reg := k; lineNo := n; line := ln;
     args := skipn 1 (asciiByteFields ln []) |}.

(** The search for the name [nm] by a line reader in condition [a]
    that has delivered [n] lines: the call made, if any, and the reader
    and the count afterwards. *)
Fixpoint search (fuel : nat) (C : nat) (nm : bytes) (k : nat) (a : reader)
    (n : nat) : list Call * reader * nat :=
  match fuel with
  | O => ([], a, n)
  | S fuel' =>
      match nextLine C a with
      | (Some tk, a') =>
          if matches nm tk then ([callFor k n tk], a', S n)
          else search fuel' C nm k a' (S n)
      | (None, a') => ([], a', n)
      end
  end.

(** The searches for the names of [fs] in turn, each going on where the
    one before it stopped. *)
Fixpoint scanFrom (C : nat) (k : nat) (fs : list lineFunc) (a : reader)
    (n : nat) : list Call :=
  match fs with
  | [] => []
  | f :: fs' =>
      let '(cs, a', n') := search (linesLeft a + 1) C (name f) k a n in
      cs ++ scanFrom C (S k) fs' a' n'
  end.

(** The lines of a span: the stretches between newlines, and what
    follows the last newline if it is not empty.  [cur] is the part of
    the current line already passed. *)
Fixpoint splitLines (cur : bytes) (b : bytes) : list bytes :=
  match b with
  | [] => match cur with [] => [] | _ => [cur] end
  | c :: b' =>
      if Byte.eqb c x0a then cur :: splitLines [] b'
      else splitLines (cur ++ [c]) b'
  end.

(** The lines as the scanner hands them out: without the carriage
    return a line may end in. *)
Definition textLines (b : bytes) : list bytes :=
  map bufio.dropCR (splitLines [] b).

(** The first line of [ls] that matches [nm]: how many lines come
    before it, the line, and the lines after it. *)
Fixpoint findLine (nm : bytes) (ls : list bytes) : option (nat * bytes * list bytes) :=
  match ls with
  | [] => None
  | l :: ls' =>
      if matches nm l then Some (O, l, ls')
      else match findLine nm ls' with
           | Some (j, m, rest) => Some (S j, m, rest)
           | None => None
           end
  end.

(** Each [lineFunc] in turn takes the first line that matches it among
    the lines after the one taken before; when none matches there are
    no lines left for the others. *)
Fixpoint dispatch (k : nat) (fs : list lineFunc) (n : nat) (ls : list bytes) : list Call :=
  match fs with
  | [] => []
  | f :: fs' =>
      match findLine (name f) ls with
      | Some (j, l, rest) => callFor k (n + j) l :: dispatch (S k) fs' (n + S j) rest
      | None => []
      end
  end.

(** A reader that will not fail: all it has left is shorter than the
    buffer. *)
Definition calm (C : nat) (a : reader) : Prop :=
  match a with
  | Open R => length R < C
  | Failed _ => False
  | Stopped => True
  end.

End scan_spec.

(** ** Properties of the meters *)

Module meter_facts.

Import meter examples.
Local Open Scope Z_scope.

Lemma DefineCounter_f (now : Time) (d : MeterDescription) :
  f (DefineCounter now d) = counterSetFn.
Proof. reflexivity. Qed.

Lemma SampleAt_f (m : scalarMeter) (t0 : Time) (v0 : Z) :
  f (SampleAt m t0 v0) = f m.
Proof.
  unfold SampleAt, call, counterSet, gaugeSet, Value.
  destruct (f m) eqn:E; simpl; [destruct (v0 <? v m)|]; simpl; auto.
Qed.

Lemma SampleAt_md (m : scalarMeter) (t0 : Time) (v0 : Z) :
  md (SampleAt m t0 v0) = md m.
Proof.
  unfold SampleAt, call, counterSet, gaugeSet, Value.
  destruct (f m); simpl; [destruct (v0 <? v m)|]; reflexivity.
Qed.

(** C9.  For every scalarMeter, counter or gauge, and every call
    [SampleAt(t, v)], [Value()] afterwards returns exactly [(t, v)]: the
    sample is stored last and overwrites whatever the set function
    wrote, the zero of the counter-reset path included (on that path
    the set function leaves [(t, 0)]). *)
Theorem SampleAt_Value (m : scalarMeter) (t0 : Time) (v0 : Z) :
  Value (SampleAt m t0 v0) = (t0, v0) /\
  (f m = counterSetFn -> v0 < v m ->
   Value (call (f m) m t0 v0) = (t0, 0)).
Proof.
  split.
  - unfold SampleAt, Value. destruct (f m); reflexivity.
  - intros Hf Hlt. rewrite Hf. unfold call, counterSet, Value.
    apply Z.ltb_lt in Hlt. rewrite Hlt. reflexivity.
Qed.

(** C1, as the code has it.  For every counter meter whose value is
    [old], [SampleAt(t, v)] with [v < old] is treated as a reset:
    afterwards [resetTime] is [t], [sampleTime] is [t], and the value is
    the sample [v]. *)
Theorem counter_reset_keeps_sample (m : scalarMeter) (t0 : Time) (v0 : Z) :
  f m = counterSetFn ->
  v0 < v m ->
  r (SampleAt m t0 v0) = t0 /\
  t (SampleAt m t0 v0) = t0 /\
  v (SampleAt m t0 v0) = v0.
Proof.
  intros Hf Hlt. unfold SampleAt. rewrite Hf. simpl.
  unfold counterSet, Value.
  apply Z.ltb_lt in Hlt. rewrite Hlt. simpl. auto.
Qed.

Lemma counter_reset_keeps_sample_witness :
  r (SampleAt sampled100 2 50) = 2 /\
  t (SampleAt sampled100 2 50) = 2 /\
  v (SampleAt sampled100 2 50) = 50.
Proof.
  apply (counter_reset_keeps_sample sampled100 2 50).
  - reflexivity.
  - vm_compute. reflexivity.
Defined.

(** C1 fails as stated: a counter sampled with 100 and then with 50 has
    the value 50 after the second call, not 0. *)
Lemma counter_reset_value_not_zero :
  f sampled100 = counterSetFn /\
  50 < v sampled100 /\
  ~ (r (SampleAt sampled100 2 50) = 2 /\ v (SampleAt sampled100 2 50) = 0).
Proof.
  split; [reflexivity|]. split; [vm_compute; reflexivity|].
  intros [_ H]. vm_compute in H. discriminate H.
Qed.

(** X1.  Without a reset a counter takes the sample and keeps its reset time. *)
Lemma counter_no_reset (m : scalarMeter) (t0 : Time) (v0 : Z) :
  f m = counterSetFn ->
  v m <= v0 ->
  SampleAt m t0 v0 = {| md := md m; v := v0; t := t0; r := r m; f := f m |}.
Proof.
  intros Hf Hle. apply Z.ltb_ge in Hle.
  destruct m as [d x tm rs fn]; simpl in *; subst fn.
  unfold SampleAt, call, counterSet, Value; cbn [f v t r md].
  rewrite Hle. reflexivity.
Qed.

(** C8.  For every gauge meter and every call [SampleAt(t, v)], the
    value afterwards is [v] and the sample time is [t], also when [v] is
    below the previous value, and the reset time is unchanged. *)
Theorem gauge_passthrough (m : scalarMeter) (t0 : Time) (v0 : Z) :
  f m = gaugeSetFn ->
  v (SampleAt m t0 v0) = v0 /\
  t (SampleAt m t0 v0) = t0 /\
  r (SampleAt m t0 v0) = r m.
Proof.
  intros Hf. unfold SampleAt. rewrite Hf. simpl. auto.
Qed.

Lemma gauge_passthrough_witness :
  v (SampleAt gauge100 2 50) = 50 /\
  t (SampleAt gauge100 2 50) = 2 /\
  r (SampleAt gauge100 2 50) = 0.
Proof.
  apply (gauge_passthrough gauge100 2 50). reflexivity.
Defined.

(** C10.  [RegisterFunction(f, meters...)] does nothing, whatever the
    arguments: the world afterwards is the world before, so nothing is
    recorded in the origin, the functor has not run, and every meter
    passed has the value, sample time and reset time it had. *)
Theorem RegisterFunction_noop (fn : functor) (ms : list nat) (w : World) :
  RegisterFunction fn ms w = w /\
  invocations (RegisterFunction fn ms w) = invocations w /\
  origin (RegisterFunction fn ms w) = origin w /\
  forall p, In p ms ->
    nth_error (store (RegisterFunction fn ms w)) p = nth_error (store w) p.
Proof.
  unfold RegisterFunction. repeat split; reflexivity.
Qed.

(** A functor that does run is seen by the count. *)
Lemma run_counts (fn : functor) (w : World) :
  invocations (run fn w) = S (invocations (fn w)).
Proof. reflexivity. Qed.

End meter_facts.

(** ** Properties of [naiveAtoi] *)

Module atoi_facts.

Import scanner reference examples.
Local Open Scope Z_scope.

Lemma byteval_range (c : byte) : 0 <= byteval c < 256.
Proof.
  unfold byteval. pose proof (Byte.to_N_bounded c) as H. lia.
Qed.

Lemma digit_of_IsDigit (c : byte) :
  IsDigit c -> digit c = byteval c - 48 /\ 0 <= digit c <= 9.
Proof.
  unfold IsDigit, digit. intros H.
  change (byteval x30) with 48.
  rewrite Z.mod_small by lia. lia.
Qed.

Lemma isDigit_true (c : byte) : IsDigit c -> isDigit c = true.
Proof.
  unfold IsDigit, isDigit. intros H.
  apply andb_true_intro. split; apply Z.leb_le; lia.
Qed.

(** Reading more digits never makes the number smaller. *)
Lemma decimalFrom_ge (b : bytes) :
  forall n, 0 <= n -> Forall IsDigit b -> n <= decimalFrom n b.
Proof.
  induction b as [|c b IH]; intros n Hn Hd; simpl.
  - unfold decimalFrom. simpl. lia.
  - inversion Hd as [|? ? Hc Hb]; subst.
    unfold decimalFrom in *. simpl.
    unfold IsDigit in Hc.
    specialize (IH (n * 10 + (byteval c - 48)) ltac:(lia) Hb). lia.
Qed.

Lemma naiveAtoi_from (b : bytes) :
  forall n, 0 <= n -> Forall IsDigit b -> decimalFrom n b < 2 ^ 64 ->
  fold_left (fun rv c => uint64 (uint64 (rv * 10) + digit c)) b n
  = decimalFrom n b.
Proof.
  induction b as [|c b IH]; intros n Hn Hd Hlt.
  - reflexivity.
  - inversion Hd as [|? ? Hc Hb]; subst.
    destruct (digit_of_IsDigit c Hc) as [Hdig Hr].
    assert (Hstep : n * 10 + (byteval c - 48) <= decimalFrom n (c :: b)).
    { unfold decimalFrom. simpl. apply (decimalFrom_ge b); [lia | exact Hb]. }
    cbn [fold_left].
    assert (Hacc : uint64 (uint64 (n * 10) + digit c) = n * 10 + (byteval c - 48)).
    { unfold uint64. rewrite (Z.mod_small (n * 10)) by lia.
      rewrite Hdig. apply Z.mod_small. lia. }
    rewrite Hacc.
    apply IH; [lia | exact Hb | exact Hlt].
Qed.

Lemma parseDigits_from (b : bytes) :
  forall n, 0 <= n -> Forall IsDigit b -> decimalFrom n b < 2 ^ 64 ->
  parseDigits b n = Ok (decimalFrom n b).
Proof.
  induction b as [|c b IH]; intros n Hn Hd Hlt.
  - reflexivity.
  - inversion Hd as [|? ? Hc Hb]; subst.
    destruct (digit_of_IsDigit c Hc) as [Hdig Hr].
    assert (Hstep : n * 10 + (byteval c - 48) <= decimalFrom n (c :: b)).
    { unfold decimalFrom. simpl. apply (decimalFrom_ge b); [lia | exact Hb]. }
    cbn [parseDigits]. rewrite (isDigit_true c Hc).
    assert (Hcut : (cutoff <=? n) = false).
    { apply Z.leb_gt. unfold cutoff, maxVal.
      change (2 ^ 64) with 18446744073709551616 in *.
      change ((18446744073709551616 - 1) / 10 + 1) with 1844674407370955162.
      lia. }
    rewrite Hcut. unfold uint64.
    rewrite (Z.mod_small (n * 10)) by lia.
    rewrite Hdig. rewrite Z.mod_small by lia.
    assert (H1 : (n * 10 + (byteval c - 48) <? n * 10) = false)
      by (apply Z.ltb_ge; lia).
    assert (H2 : (maxVal <? n * 10 + (byteval c - 48)) = false)
      by (apply Z.ltb_ge; unfold maxVal; lia).
    rewrite H1, H2. cbn [orb].
    apply IH; [lia | exact Hb | exact Hlt].
Qed.

(** C5.  For every byte span made of ASCII digits only whose decimal
    value fits in 64 bits, [naiveAtoi] returns exactly that value, which
    is also what the validating parser returns for the span (the
    validating parser accepts no empty span). *)
Theorem naiveAtoi_decimal (b : bytes) :
  Forall IsDigit b ->
  decimal b < 2 ^ 64 ->
  naiveAtoi b = decimal b /\
  (b <> [] -> ParseUint b = Ok (naiveAtoi b)).
Proof.
  intros Hd Hlt.
  assert (Hn : naiveAtoi b = decimal b).
  { unfold naiveAtoi, decimal. apply naiveAtoi_from; [lia | exact Hd | exact Hlt]. }
  split; [exact Hn|].
  intros Hne. rewrite Hn. destruct b as [|c b]; [congruence|].
  unfold ParseUint, decimal. apply parseDigits_from; [lia | exact Hd | exact Hlt].
Qed.

Lemma Forall_IsDigit_dec (b : bytes) :
  forallb isDigit b = true -> Forall IsDigit b.
Proof.
  intros H. apply Forall_forall. intros c Hc.
  rewrite forallb_forall in H. specialize (H c Hc).
  unfold isDigit in H. apply andb_prop in H. destruct H as [H1 H2].
  apply Z.leb_le in H1. apply Z.leb_le in H2. split; assumption.
Qed.

Lemma naiveAtoi_decimal_witness :
  naiveAtoi maxDigits = decimal maxDigits /\
  (maxDigits <> [] -> ParseUint maxDigits = Ok (naiveAtoi maxDigits)).
Proof.
  apply (naiveAtoi_decimal maxDigits).
  - apply Forall_IsDigit_dec. vm_compute. reflexivity.
  - vm_compute. reflexivity.
Defined.

(** The benchmark's value. *)
Example naiveAtoi_val : naiveAtoi val = 8475589.
Proof. vm_compute. reflexivity. Qed.

End atoi_facts.

(** ** Properties of the field splitter *)

Module fields_facts.

Import gobytes scanner reference invariants examples.

Lemma asciiSpace_IsSpace (c : byte) :
  (asciiSpace c =? 0)%Z = false <-> IsSpace c.
Proof.
  unfold IsSpace.
  destruct c; simpl; split; intros H; try discriminate H; try reflexivity;
    try (repeat (destruct H as [H | H]; try discriminate H));
    auto 7.
Qed.

Lemma asciiSpace_NonSpace (c : byte) :
  (asciiSpace c =? 0)%Z = true <-> NonSpace c.
Proof.
  unfold NonSpace. rewrite <- asciiSpace_IsSpace.
  destruct (asciiSpace c =? 0)%Z; split; congruence.
Qed.

Lemma at_middle (pre : bytes) (c : byte) (rest : bytes) :
  at_ (pre ++ c :: rest) (length pre) = c.
Proof. unfold at_. apply nth_middle. Qed.

Lemma slice_middle (pre cur rest : bytes) :
  slice (pre ++ cur ++ rest) (length pre) (length (pre ++ cur)) = cur.
Proof.
  unfold slice. rewrite skipn_app, skipn_all, Nat.sub_diag. simpl.
  rewrite length_app.
  replace (length pre + length cur - length pre) with (length cur) by lia.
  rewrite firstn_app, firstn_all, Nat.sub_diag. simpl. apply app_nil_r.
Qed.

(** The loop that skips spaces stops at the first byte that is not one. *)
Lemma skipSpaces_spec (rest : bytes) :
  forall fuel pre,
  length rest <= fuel ->
  exists ws rest',
    rest = ws ++ rest' /\ Forall IsSpace ws /\ startsWith NonSpace rest' /\
    skipSpaces fuel (pre ++ rest) (length pre) = length (pre ++ ws).
Proof.
  induction rest as [|c rest IH]; intros fuel pre Hfuel.
  - exists [], []. repeat split; auto.
    rewrite !app_nil_r. destruct fuel; simpl; auto.
    rewrite Nat.ltb_irrefl. reflexivity.
  - destruct fuel as [|fuel]; [simpl in Hfuel; lia|].
    simpl in Hfuel. cbn [skipSpaces].
    assert (Hin : (length pre <? length (pre ++ c :: rest)) = true).
    { apply Nat.ltb_lt. rewrite length_app. simpl. lia. }
    rewrite Hin, at_middle. cbn [andb].
    destruct (asciiSpace c =? 0)%Z eqn:E; cbn [negb].
    + exists [], (c :: rest). repeat split; auto.
      * simpl. apply asciiSpace_NonSpace. exact E.
      * rewrite app_nil_r. reflexivity.
    + destruct (IH fuel (pre ++ [c]) ltac:(lia)) as (ws & rest' & Hr & Hws & Hst & Hsk).
      exists (c :: ws), rest'. repeat split.
      * simpl. congruence.
      * constructor; [apply asciiSpace_IsSpace; exact E | exact Hws].
      * exact Hst.
      * rewrite <- app_assoc in Hsk. simpl in Hsk.
        rewrite length_app in Hsk. simpl in Hsk.
        rewrite Nat.add_1_r in Hsk. rewrite Hsk.
        rewrite !length_app. simpl. lia.
Qed.

(** White space in front of a span does not change its runs. *)
Lemma Runs_spaces (ws s : bytes) (fs : list bytes) :
  Forall IsSpace ws -> Runs s fs -> Runs (ws ++ s) fs.
Proof.
  intros Hws HR. inversion HR as [ws' Hws' | ws' fld rest fs' Hws' Hne Hfld Hst Hrest]; subst.
  - constructor. apply Forall_app. split; assumption.
  - rewrite app_assoc. constructor; auto.
    apply Forall_app. split; assumption.
Qed.

Lemma lastField_end (pre cur : bytes) (a : list bytes) :
  Forall NonSpace cur ->
  exists fs, lastField (pre ++ cur ++ []) (length pre, a) = a ++ fs /\
             Runs (cur ++ []) fs.
Proof.
  intros Hcur. unfold lastField. rewrite !app_nil_r.
  destruct cur as [|c cur].
  - rewrite app_nil_r, Nat.ltb_irrefl. exists []. split.
    + symmetry. apply app_nil_r.
    + constructor. constructor.
  - assert (Hlt : (length pre <? length (pre ++ c :: cur)) = true).
    { apply Nat.ltb_lt. rewrite length_app. simpl. lia. }
    rewrite Hlt. exists [c :: cur]. split.
    + f_equal. f_equal.
      pose proof (slice_middle pre (c :: cur) []) as H.
      rewrite !app_nil_r in H. exact H.
    + pose proof (Runs_more [] (c :: cur) [] [] (Forall_nil _)) as H.
      simpl in H. rewrite app_nil_r in H. apply H; auto.
      * discriminate.
      * constructor. constructor.
Qed.

(** The main loop, with [s = pre ++ cur ++ rest], [fieldStart] at the
    beginning of [cur] and [i] at its end: the fields appended are the
    runs of [cur ++ rest]. *)
Lemma fieldsLoop_spec (fuel : nat) :
  forall pre cur rest a,
  length rest <= fuel ->
  Forall NonSpace cur ->
  (cur = [] -> startsWith NonSpace rest) ->
  exists fs,
    lastField (pre ++ cur ++ rest)
      (fieldsLoop fuel (pre ++ cur ++ rest) (length pre) (length (pre ++ cur)) a)
    = a ++ fs /\
    Runs (cur ++ rest) fs.
Proof.
  induction fuel as [|fuel IH]; intros pre cur rest a Hfuel Hcur Hst.
  - destruct rest; [|simpl in Hfuel; lia].
    cbn [fieldsLoop]. apply lastField_end. exact Hcur.
  - destruct rest as [|c rest].
    + cbn [fieldsLoop].
      assert (Hge : (length (pre ++ cur) <? length (pre ++ cur ++ [])) = false).
      { apply Nat.ltb_ge. rewrite !length_app. simpl. lia. }
      rewrite Hge. apply lastField_end. exact Hcur.
    + simpl in Hfuel. cbn [fieldsLoop].
      assert (Hlt : (length (pre ++ cur) <? length (pre ++ cur ++ c :: rest)) = true).
      { apply Nat.ltb_lt. rewrite !length_app. simpl. lia. }
      rewrite Hlt.
      assert (Hat : at_ (pre ++ cur ++ c :: rest) (length (pre ++ cur)) = c).
      { rewrite app_assoc. apply at_middle. }
      rewrite Hat.
      destruct (asciiSpace c =? 0)%Z eqn:E.
      * (* one more byte of the field *)
        destruct (IH pre (cur ++ [c]) rest a ltac:(lia)) as (fs & Hfs & HR).
        { apply Forall_app. split; [exact Hcur|].
          constructor; [apply asciiSpace_NonSpace; exact E | constructor]. }
        { intros Hnil. destruct cur; discriminate Hnil. }
        exists fs. split.
        -- replace (pre ++ (cur ++ [c]) ++ rest) with (pre ++ cur ++ c :: rest) in Hfs
             by (rewrite <- !app_assoc; reflexivity).
           replace (length (pre ++ cur ++ [c])) with (S (length (pre ++ cur))) in Hfs
             by (rewrite !length_app; simpl; lia).
           exact Hfs.
        -- rewrite <- app_assoc in HR. exact HR.
      * (* the field ends here *)
        assert (Hsp : IsSpace c) by (apply asciiSpace_IsSpace; exact E).
        assert (Hne : cur <> []).
        { intros Hnil. specialize (Hst Hnil). simpl in Hst. contradiction. }
        rewrite slice_middle.
        destruct (skipSpaces_spec rest (length (pre ++ cur ++ c :: rest))
                    (pre ++ cur ++ [c])) as (ws & rest' & Hr & Hws & Hst' & Hsk).
        { rewrite !length_app. simpl. lia. }
        replace ((pre ++ cur ++ [c]) ++ rest) with (pre ++ cur ++ c :: rest) in Hsk
          by (rewrite <- !app_assoc; reflexivity).
        replace (length (pre ++ cur ++ [c])) with (S (length (pre ++ cur))) in Hsk
          by (rewrite !length_app; simpl; lia).
        rewrite Hsk.
        destruct (IH ((pre ++ cur ++ [c]) ++ ws) [] rest' (a ++ [cur])) as (fs & Hfs & HR).
        { subst rest. rewrite length_app in Hfuel. lia. }
        { constructor. }
        { intros _. exact Hst'. }
        exists (cur :: fs). split.
        -- rewrite app_nil_r in Hfs. cbn [app] in Hfs.
           replace (((pre ++ cur ++ [c]) ++ ws) ++ rest')
             with (pre ++ cur ++ c :: rest) in Hfs
             by (subst rest; rewrite <- !app_assoc; reflexivity).
           etransitivity; [exact Hfs|].
           rewrite <- app_assoc. reflexivity.
        -- pose proof (Runs_more [] cur (c :: rest) fs (Forall_nil _) Hne Hcur) as H.
           simpl in H. apply H; [exact Hsp|].
           subst rest. apply (Runs_spaces (c :: ws)); [|exact HR].
           constructor; assumption.
Qed.

Lemma asciiByteFields_lastField (s : bytes) (a : list bytes) :
  asciiByteFields s a
  = lastField s (fieldsLoop (length s) s (skipSpaces (length s) s 0)
                            (skipSpaces (length s) s 0) a).
Proof.
  unfold asciiByteFields, lastField.
  destruct (fieldsLoop _ _ _ _ _). reflexivity.
Qed.

(** [asciiByteFields] appends the runs of [s] to [a]. *)
Lemma asciiByteFields_spec (s : bytes) (a : list bytes) :
  exists fs, asciiByteFields s a = a ++ fs /\ Runs s fs.
Proof.
  rewrite asciiByteFields_lastField.
  destruct (skipSpaces_spec s (length s) [] (le_n _))
    as (ws & rest & Hs & Hws & Hst & Hsk).
  simpl in Hsk. rewrite Hsk.
  destruct (fieldsLoop_spec (length s) ws [] rest a) as (fs & Hfs & HR).
  - subst s. rewrite length_app. lia.
  - constructor.
  - intros _. exact Hst.
  - exists fs. split.
    + cbn [app] in Hfs. rewrite app_nil_r in Hfs. rewrite <- Hs in Hfs.
      exact Hfs.
    + rewrite Hs. apply Runs_spaces; [exact Hws | exact HR].
Qed.

(** A span splits in one way only into a prefix of bytes that satisfy
    [P] and a rest that does not begin with one. *)
Lemma span_unique (P : byte -> Prop) (a1 a2 b1 b2 : bytes) :
  a1 ++ b1 = a2 ++ b2 ->
  Forall P a1 -> Forall P a2 ->
  startsWith (fun c => ~ P c) b1 -> startsWith (fun c => ~ P c) b2 ->
  a1 = a2 /\ b1 = b2.
Proof.
  revert a2. induction a1 as [|x a1 IH]; intros a2 Heq H1 H2 S1 S2.
  - destruct a2 as [|y a2]; [auto|].
    simpl in Heq. subst b1. simpl in S1.
    inversion H2; subst. contradiction.
  - destruct a2 as [|y a2].
    + simpl in Heq. subst b2. simpl in S2.
      inversion H1; subst. contradiction.
    + simpl in Heq. injection Heq as Hxy Heq. subst y.
      inversion H1; subst. inversion H2; subst.
      destruct (IH a2 Heq) as [Ha Hb]; auto.
      subst. auto.
Qed.

Lemma startsWith_app (P : byte -> Prop) (fld rest : bytes) :
  fld <> [] -> Forall P fld -> startsWith P (fld ++ rest).
Proof.
  intros Hne Hf. destruct fld as [|c fld]; [congruence|].
  simpl. inversion Hf; assumption.
Qed.

Lemma startsWith_IsSpace_not (rest : bytes) :
  startsWith IsSpace rest -> startsWith (fun c => ~ NonSpace c) rest.
Proof.
  destruct rest as [|c rest]; simpl; [auto|]. unfold NonSpace. tauto.
Qed.

(** The runs of a span are determined by the span. *)
Lemma Runs_unique (s : bytes) (fs1 : list bytes) :
  Runs s fs1 -> forall fs2, Runs s fs2 -> fs1 = fs2.
Proof.
  induction 1 as [ws Hws | ws fld rest fs Hws Hne Hfld Hst HR IH];
    intros fs2 H2.
  - inversion H2 as [| ws2 fld2 rest2 fs2' Hws2 Hne2 Hfld2 Hst2 HR2 Heq]; subst; auto.
    exfalso. destruct fld2 as [|c fld2]; [congruence|].
    inversion Hfld2; subst.
    assert (Hc : IsSpace c).
    { rewrite Forall_forall in Hws. apply Hws.
      apply in_or_app. right. left. reflexivity. }
    contradiction.
  - inversion H2 as [ws2 Hws2 Heq | ws2 fld2 rest2 fs2' Hws2 Hne2 Hfld2 Hst2 HR2 Heq]; subst.
    + exfalso. destruct fld as [|c fld]; [congruence|].
      inversion Hfld; subst.
      assert (Hc : IsSpace c).
      { rewrite Forall_forall in Hws2. apply Hws2.
        apply in_or_app. right. left. reflexivity. }
      contradiction.
    + destruct (span_unique IsSpace ws2 ws (fld2 ++ rest2) (fld ++ rest) Heq)
        as [Hw Hfr]; auto.
      * apply startsWith_app; assumption.
      * apply startsWith_app; assumption.
      * destruct (span_unique NonSpace fld2 fld rest2 rest Hfr) as [Hf Hr]; auto.
        -- apply startsWith_IsSpace_not. exact Hst2.
        -- apply startsWith_IsSpace_not. exact Hst.
        -- subst. f_equal. apply IH. exact HR2.
Qed.

(** C4.  For every byte span, the field splitter returns exactly the
    sequence of maximal runs of bytes that are not white space (white
    space being tab, newline, vertical tab, form feed, carriage return
    and space), from left to right; no field is empty; an empty span
    yields the empty sequence.  [Fields] returns this sequence and
    leaves it in the scratch [fields]. *)
Theorem asciiByteFields_runs (s : bytes) :
  Runs s (asciiByteFields s []) /\
  (forall fs, Runs s fs -> fs = asciiByteFields s []) /\
  Forall (fun fld => fld <> [] /\ Forall NonSpace fld) (asciiByteFields s []) /\
  asciiByteFields [] [] = [] /\
  (forall a, asciiByteFields s a = a ++ asciiByteFields s []) /\
  (forall bs, fst (Fields bs s) = asciiByteFields s [] /\
              fields (snd (Fields bs s)) = asciiByteFields s []).
Proof.
  destruct (asciiByteFields_spec s []) as (fs0 & H0 & HR0).
  simpl in H0.
  assert (HR : Runs s (asciiByteFields s [])) by (rewrite H0; exact HR0).
  split; [exact HR|]. split; [|split; [|split; [|split]]].
  - intros fs Hfs. apply (Runs_unique s fs Hfs). exact HR.
  - clear H0 HR0. induction HR; constructor; auto.
  - reflexivity.
  - intros a. destruct (asciiByteFields_spec s a) as (fs & Hfs & HRa).
    rewrite Hfs. f_equal. apply (Runs_unique s fs HRa). exact HR.
  - intros bs. unfold Fields. simpl. split; reflexivity.
Qed.

Example fields_mixed :
  asciiByteFields spaced [] = spacedFields.
Proof. vm_compute. reflexivity. Qed.

End fields_facts.

(** ** Properties of the line reader *)

Module bufio_facts.

Import gobytes bufio reference invariants.

(** *** Slices *)

Lemma slice_length (b : bytes) (lo hi : nat) :
  lo <= hi <= length b -> length (slice b lo hi) = hi - lo.
Proof.
  intros H. unfold slice. rewrite length_firstn, length_skipn. lia.
Qed.

Lemma slice_empty (b : bytes) (lo : nat) : slice b lo lo = [].
Proof. unfold slice. rewrite Nat.sub_diag. reflexivity. Qed.

Lemma slice_0 (b : bytes) (hi : nat) : slice b 0 hi = firstn hi b.
Proof. unfold slice. rewrite Nat.sub_0_r. reflexivity. Qed.

Lemma copyAt_length (dst src : bytes) (k : nat) :
  k + length src <= length dst -> length (copyAt dst k src) = length dst.
Proof.
  intros H. unfold copyAt.
  rewrite !length_app, length_firstn, length_skipn. lia.
Qed.

(** Appending to the buffered bytes. *)
Lemma slice_copyAt_end (b chunk : bytes) (lo hi : nat) :
  lo <= hi -> hi + length chunk <= length b ->
  slice (copyAt b hi chunk) lo (hi + length chunk) = slice b lo hi ++ chunk.
Proof.
  intros H1 H2. unfold slice, copyAt.
  rewrite skipn_app, length_firstn.
  replace (Nat.min hi (length b)) with hi by lia.
  replace (lo - hi) with 0 by lia. cbn [skipn].
  rewrite firstn_app, length_skipn, length_firstn.
  replace (Nat.min hi (length b)) with hi by lia.
  rewrite skipn_firstn_comm.
  rewrite (firstn_all2 (n := hi + length chunk - lo)) by (rewrite length_firstn, length_skipn; lia).
  f_equal.
  replace (hi + length chunk - lo - (hi - lo)) with (length chunk) by lia.
  rewrite firstn_app, Nat.sub_diag, firstn_all. cbn [firstn].
  apply app_nil_r.
Qed.

(** Moving the buffered bytes to the front. *)
Lemma slice_copyAt_front (b w : bytes) :
  length w <= length b -> slice (copyAt b 0 w) 0 (length w) = w.
Proof.
  intros H. unfold slice, copyAt. cbn [firstn skipn app].
  rewrite Nat.sub_0_r, firstn_app, firstn_all, Nat.sub_diag.
  cbn [firstn]. apply app_nil_r.
Qed.

(** Taking [n] bytes off the front. *)
Lemma slice_skip (b : bytes) (lo hi n : nat) :
  lo + n <= hi -> slice b (lo + n) hi = skipn n (slice b lo hi).
Proof.
  intros H. unfold slice.
  rewrite skipn_firstn_comm, skipn_skipn.
  f_equal; [lia | f_equal; lia].
Qed.

(** *** [IndexByte] *)

Lemma IndexByte_Some (l : bytes) (c : byte) :
  forall i, IndexByte l c = Some i -> i < length l.
Proof.
  induction l as [|x l IH]; intros i H; simpl in H; [discriminate|].
  destruct (Byte.eqb x c).
  - injection H as <-. simpl. lia.
  - destruct (IndexByte l c) as [j|]; [|discriminate].
    injection H as <-. specialize (IH j eq_refl). simpl. lia.
Qed.

Lemma IndexByte_app_l (a b : bytes) (c : byte) (i : nat) :
  IndexByte a c = Some i -> IndexByte (a ++ b) c = Some i.
Proof.
  revert i. induction a as [|x a IH]; intros i H; simpl in *; [discriminate|].
  destruct (Byte.eqb x c); [exact H|].
  destruct (IndexByte a c) as [j|]; [|discriminate].
  rewrite (IH j eq_refl). exact H.
Qed.

Lemma IndexByte_app_None (a b : bytes) (c : byte) :
  IndexByte (a ++ b) c = None -> IndexByte a c = None.
Proof.
  intros H. destruct (IndexByte a c) as [i|] eqn:E; [|reflexivity].
  rewrite (IndexByte_app_l a b c i E) in H. discriminate.
Qed.

Lemma firstn_app_le (w u : bytes) (n : nat) :
  length w <= n -> firstn n (w ++ u) = w ++ firstn (n - length w) u.
Proof.
  intros H. rewrite firstn_app. f_equal. apply firstn_all2. exact H.
Qed.

(** *** One iteration of [Scan] on an open scanner *)

Lemma Rep_sameButToken (C : nat) (sc1 sc2 : Scanner) (a : reader) :
  sameButToken sc1 sc2 -> Rep C sc2 a -> Rep C sc1 a.
Proof.
  intros (Hr & Hm & Hb & Hs & He & Herr).
  unfold Rep, window, unreadBytes.
  rewrite Hr, Hm, Hb, Hs, He, Herr. auto.
Qed.

Lemma window_length (C : nat) (sc : Scanner) (a : reader) :
  Rep C sc a -> length (window sc) = end_ sc - start sc.
Proof.
  intros (Hb & _ & Hse & _). unfold window. apply slice_length. lia.
Qed.

(** The split: a newline in the buffer gives a line. *)
Lemma splitStep_line (C : nat) (sc : Scanner) (R : bytes) (i : nat) :
  Rep C sc (Open R) ->
  IndexByte (window sc) x0a = Some i ->
  exists sc',
    splitStep sc = Return true sc' /\
    token sc' = Some (dropCR (firstn i R)) /\
    Rep C sc' (Open (skipn (S i) R)) /\
    IndexByte (firstn C R) x0a = Some i /\ R <> [] /\ C <> 0.
Proof.
  intros HR Hi.
  pose proof (window_length C sc _ HR) as Hlen.
  pose proof (IndexByte_Some _ _ _ Hi) as Hlt.
  destruct HR as (Hb & Hm & Hse & Herr & HRw).
  unfold splitStep.
  assert (Hcond : (start sc <? end_ sc) = true) by (apply Nat.ltb_lt; lia).
  rewrite Hcond. cbn [orb]. fold (window sc).
  unfold ScanLines. rewrite Herr. cbn [isErr andb]. rewrite Hi.
  unfold advance.
  assert (Hadv : (end_ sc - start sc <? i + 1) = false) by (apply Nat.ltb_ge; lia).
  rewrite Hadv. cbn [token].
  eexists. split; [reflexivity|]. cbn [token]. split; [|split; [|split; [|split]]].
  - rewrite slice_0. subst R. rewrite firstn_app.
    replace (i - length (window sc)) with 0 by lia.
    cbn [firstn]. rewrite app_nil_r. reflexivity.
  - unfold Rep. cbn [buf maxTokenSize start end_ err].
    repeat split; try assumption; try lia.
    unfold window, unreadBytes. cbn [buf start end_ r].
    rewrite slice_skip by lia. fold (window sc). fold (unreadBytes sc).
    subst R. rewrite skipn_app.
    replace (S i - length (window sc)) with 0 by lia.
    replace (i + 1) with (S i) by lia. reflexivity.
  - subst R. rewrite firstn_app_le by lia. apply IndexByte_app_l. exact Hi.
  - subst R. destruct (window sc); [simpl in Hlt; lia | discriminate].
  - lia.
Qed.

(** The split: no newline in the buffer, nothing at the end of input
    yet, gives no line. *)
Lemma splitStep_none (C : nat) (sc : Scanner) (R : bytes) :
  Rep C sc (Open R) ->
  IndexByte (window sc) x0a = None ->
  exists sc1, splitStep sc = Again sc1 /\ sameButToken sc1 sc.
Proof.
  intros HR Hi.
  destruct HR as (Hb & Hm & Hse & Herr & HRw).
  unfold splitStep. rewrite Herr. cbn [isErr].
  destruct (start sc <? end_ sc) eqn:Hcond; cbn [orb].
  - fold (window sc). unfold ScanLines. cbn [andb]. rewrite Hi.
    unfold advance.
    assert (Hadv : (end_ sc - start sc <? 0) = false) by (apply Nat.ltb_ge; lia).
    rewrite Hadv. eexists. split; [reflexivity|].
    unfold sameButToken. cbn [r maxTokenSize buf start end_ err].
    repeat split; auto.
  - exists sc. split; [reflexivity|]. unfold sameButToken. repeat split.
Qed.

Lemma firstn_skipn_length (m : nat) (u : bytes) :
  firstn m u ++ skipn (length (firstn m u)) u = u.
Proof.
  rewrite length_firstn. destruct (Nat.le_ge_cases m (length u)) as [H | H].
  - rewrite Nat.min_l by exact H. apply firstn_skipn.
  - rewrite Nat.min_r by exact H.
    rewrite firstn_all2 by exact H. rewrite skipn_all. apply app_nil_r.
Qed.

(** Shifting keeps what is buffered, and a buffer that is full after it
    holds the data from its first byte. *)
Lemma shift_open (C : nat) (sc : Scanner) (R : bytes) :
  Rep C sc (Open R) ->
  Rep C (shift sc) (Open R) /\
  window (shift sc) = window sc /\
  unreadBytes (shift sc) = unreadBytes sc /\
  (end_ (shift sc) = C -> start (shift sc) = 0).
Proof.
  intros HR. pose proof (window_length C sc _ HR) as Hlen.
  destruct HR as (Hb & Hm & Hse & Herr & HRw).
  unfold shift.
  destruct ((0 <? start sc)
            && ((end_ sc =? length (buf sc)) || (length (buf sc) / 2 <? start sc)))
    eqn:Hc.
  - fold (window sc).
    assert (Hw : window {| r := r sc; maxTokenSize := maxTokenSize sc;
                           token := token sc;
                           buf := copyAt (buf sc) 0 (window sc);
                           start := 0; end_ := end_ sc - start sc;
                           err := err sc |} = window sc).
    { unfold window at 1. cbn [buf start end_]. rewrite <- Hlen.
      apply slice_copyAt_front. lia. }
    split; [|split; [exact Hw | split; [reflexivity | reflexivity]]].
    unfold Rep. rewrite Hw. cbn [buf maxTokenSize start end_ err].
    repeat split; try assumption; try lia.
    rewrite copyAt_length; [exact Hb | simpl; lia].
  - split; [|split; [reflexivity | split; [reflexivity|]]].
    + unfold Rep. repeat split; assumption || lia.
    + intros He. apply andb_false_iff in Hc. destruct Hc as [Hc | Hc].
      * apply Nat.ltb_ge in Hc. lia.
      * apply orb_false_iff in Hc. destruct Hc as [Hc _].
        apply Nat.eqb_neq in Hc. lia.
Qed.

(** Reading into a buffer that has room. *)
Lemma readLoop_open (C : nat) (sc : Scanner) (R : bytes) (k : nat) :
  Rep C sc (Open R) ->
  end_ sc < C ->
  IndexByte (window sc) x0a = None ->
  (unreadBytes sc = [] /\ AtEOF C (readLoop (S k) sc) R) \/
  (Rep C (readLoop (S k) sc) (Open R) /\
   length (unreadBytes (readLoop (S k) sc)) < length (unreadBytes sc)).
Proof.
  intros HR Hroom Hnl. pose proof (window_length C sc _ HR) as Hlen.
  destruct HR as (Hb & Hm & Hse & Herr & HRw).
  cbn [readLoop]. unfold Read.
  destruct (length (s (r sc)) <=? i (r sc)) eqn:Hi.
  - (* the reader is at its end *)
    apply Nat.leb_le in Hi. left.
    assert (HU : unreadBytes sc = []).
    { unfold unreadBytes. apply skipn_all2. exact Hi. }
    split; [exact HU|].
    cbn [length buf end_ r maxTokenSize token start err].
    assert (H0 : (length (buf sc) - end_ sc <? 0) = false)
      by (apply Nat.ltb_ge; lia).
    rewrite H0. unfold setErr. cbn [err]. rewrite Herr.
    unfold AtEOF. cbn [buf maxTokenSize start end_ err].
    rewrite copyAt_length by (simpl; lia).
    repeat split; try assumption; try lia.
    + unfold window. cbn [buf start end_].
      pose proof (slice_copyAt_end (buf sc) [] (start sc) (end_ sc)) as Hs.
      cbn [length] in Hs. rewrite Hs by lia.
      fold (window sc). rewrite app_nil_r. rewrite HRw, HU, app_nil_r.
      reflexivity.
    + rewrite HRw, HU, app_nil_r. lia.
    + rewrite HRw, HU, app_nil_r. exact Hnl.
  - (* some bytes are read *)
    apply Nat.leb_gt in Hi. right.
    fold (unreadBytes sc).
    set (chunk := firstn (length (buf sc) - end_ sc) (unreadBytes sc)).
    assert (HUlen : 0 < length (unreadBytes sc)).
    { unfold unreadBytes. rewrite length_skipn. lia. }
    assert (Hn : 0 < length chunk <= length (buf sc) - end_ sc).
    { unfold chunk. rewrite length_firstn. lia. }
    cbn [buf end_ r maxTokenSize token start err].
    assert (H0 : (length (buf sc) - end_ sc <? length chunk) = false)
      by (apply Nat.ltb_ge; lia).
    rewrite H0.
    assert (H1 : (0 <? length chunk) = true) by (apply Nat.ltb_lt; lia).
    rewrite H1.
    assert (HU : unreadBytes
                   {| r := {| s := s (r sc); i := i (r sc) + length chunk |};
                      maxTokenSize := maxTokenSize sc; token := token sc;
                      buf := copyAt (buf sc) (end_ sc) chunk;
                      start := start sc; end_ := end_ sc + length chunk;
                      err := err sc |}
                 = skipn (length chunk) (unreadBytes sc)).
    { unfold unreadBytes. cbn [r s i]. rewrite skipn_skipn.
      f_equal. lia. }
    split.
    + unfold Rep. rewrite HU. cbn [buf maxTokenSize start end_ err].
      rewrite copyAt_length by lia.
      repeat split; try assumption; try lia.
      unfold window. cbn [buf start end_].
      rewrite slice_copyAt_end by lia. fold (window sc).
      rewrite <- app_assoc. unfold chunk at 1 2.
      rewrite firstn_skipn_length. exact HRw.
    + rewrite HU, length_skipn. lia.
Qed.

(** The second half of an iteration on an open scanner without a
    newline in its buffer: the line is too long, or the input is at its
    end, or more of it is buffered. *)
Lemma fillStep_open (C : nat) (sc : Scanner) (R : bytes) :
  Rep C sc (Open R) ->
  IndexByte (window sc) x0a = None ->
  (exists sc', fillStep sc = Return false sc' /\ agrees C (Open R) false sc') \/
  (exists sc', fillStep sc = Again sc' /\ unreadBytes sc = [] /\ AtEOF C sc' R) \/
  (exists sc', fillStep sc = Again sc' /\ Rep C sc' (Open R) /\
               length (unreadBytes sc') < length (unreadBytes sc)).
Proof.
  intros HR Hnl.
  destruct (shift_open C sc R HR) as (HR2 & Hw2 & Hu2 & Hfull).
  rewrite <- Hw2 in Hnl. rewrite <- Hu2.
  pose proof (window_length C _ _ HR2) as Hlen.
  unfold fillStep.
  assert (Herr : err sc = None) by (destruct HR as (_ & _ & _ & He & _); exact He).
  rewrite Herr. cbn [isErr].
  destruct HR2 as (Hb & Hm & Hse & Herr2 & HRw).
  destruct (end_ (shift sc) =? length (buf (shift sc))) eqn:Hf.
  - (* the buffer is full and may not grow *)
    apply Nat.eqb_eq in Hf. left.
    assert (Hmax : (maxTokenSize (shift sc) <=? length (buf (shift sc))) = true)
      by (apply Nat.leb_le; lia).
    rewrite Hmax. cbn [orb].
    eexists. split; [reflexivity|].
    specialize (Hfull ltac:(lia)).
    unfold agrees, nextLine.
    destruct (C =? 0) eqn:HC.
    + apply Nat.eqb_eq in HC. cbn [fst snd]. split; [|reflexivity].
      unfold Rep, setErr. rewrite Herr2. cbn [buf maxTokenSize start end_ err].
      repeat split; try assumption; try lia; try discriminate.
    + apply Nat.eqb_neq in HC.
      assert (HlenW : length (window (shift sc)) = C) by lia.
      assert (Hfirst : firstn C R = window (shift sc)).
      { rewrite HRw, firstn_app_le by lia.
        rewrite HlenW, Nat.sub_diag. cbn [firstn]. apply app_nil_r. }
      assert (HRlen : C <= length R).
      { rewrite HRw, length_app. lia. }
      destruct R as [|c R']; [simpl in HRlen; lia|].
      rewrite Hfirst, Hnl.
      assert (Hlt : (length (c :: R') <? C) = false) by (apply Nat.ltb_ge; exact HRlen).
      rewrite Hlt. cbn [fst snd]. split; [|reflexivity].
      unfold Rep, setErr. rewrite Herr2.
      unfold window in *. cbn [buf maxTokenSize start end_ err].
      repeat split; try assumption; try lia.
      * symmetry. exact Hfirst.
      * rewrite Hfirst. exact Hnl.
  - apply Nat.eqb_neq in Hf. right.
    assert (HR2 : Rep C (shift sc) (Open R)).
    { unfold Rep. repeat split; assumption || lia. }
    destruct (readLoop_open C (shift sc) R maxConsecutiveEmptyReads HR2
                ltac:(lia) Hnl) as [[HU HE] | [HR3 Hless]].
    + left. eexists. split; [reflexivity|]. split; assumption.
    + right. eexists. split; [reflexivity|]. split; assumption.
Qed.

(** The iteration after the end of the input has been seen. *)
Lemma scanIter_AtEOF (C : nat) (sc : Scanner) (R : bytes) :
  AtEOF C sc R ->
  exists ok sc', scanIter sc = Return ok sc' /\ agrees C (Open R) ok sc'.
Proof.
  intros (Hb & Hm & Hse & Herr & HW & HRlen & Hnl).
  assert (Hlen : length (window sc) = end_ sc - start sc).
  { unfold window. apply slice_length. lia. }
  unfold scanIter, splitStep. rewrite Herr. cbn [isErr].
  rewrite orb_true_r. fold (window sc). rewrite HW.
  unfold ScanLines. cbn [andb].
  assert (HC : (C =? 0) = false) by (apply Nat.eqb_neq; lia).
  unfold agrees, nextLine. rewrite HC.
  destruct R as [|c R'].
  - (* nothing is left *)
    cbn [length Nat.eqb]. unfold advance.
    assert (Hadv : (end_ sc - start sc <? 0) = false) by (apply Nat.ltb_ge; lia).
    rewrite Hadv. unfold fillStep. cbn [err]. rewrite Herr. cbn [isErr].
    eexists. eexists. split; [reflexivity|].
    cbn [fst snd]. split; [|reflexivity].
    unfold Rep. cbn [buf maxTokenSize start end_ err].
    repeat split; try assumption; try lia; try discriminate.
  - (* the last line has no newline *)
    assert (Hz : (length (c :: R') =? 0) = false) by reflexivity.
    rewrite Hz, Hnl. unfold advance.
    assert (Hadv : (end_ sc - start sc <? length (c :: R')) = false).
    { apply Nat.ltb_ge. rewrite <- Hlen, HW. lia. }
    rewrite Hadv.
    eexists. eexists. split; [reflexivity|].
    rewrite firstn_all2 by lia. rewrite Hnl.
    assert (Hlt : (length (c :: R') <? C) = true) by (apply Nat.ltb_lt; exact HRlen).
    rewrite Hlt. cbn [fst snd token]. split; [|split; reflexivity].
    unfold Rep. cbn [buf maxTokenSize start end_ err].
    rewrite Herr.
    assert (Hend : start sc + length (c :: R') = end_ sc).
    { rewrite <- HW, Hlen. lia. }
    repeat split; try assumption; try lia; try discriminate.
Qed.

(** A stopped scanner stays stopped. *)
Lemma scanIter_Stopped (C : nat) (sc : Scanner) :
  Rep C sc Stopped ->
  exists sc', scanIter sc = Return false sc' /\ agrees C Stopped false sc' /\
              err sc' = err sc.
Proof.
  intros (Hb & Hm & Hse & Herr & Heq).
  destruct (err sc) as [e|] eqn:He; [|congruence].
  unfold scanIter, splitStep. rewrite He. cbn [isErr].
  rewrite orb_true_r. rewrite <- Heq, slice_empty.
  unfold ScanLines. cbn [andb length Nat.eqb]. unfold advance.
  assert (Hadv : (end_ sc - start sc <? 0) = false) by (apply Nat.ltb_ge; lia).
  rewrite Hadv. unfold fillStep. cbn [err]. rewrite He. cbn [isErr].
  eexists. split; [reflexivity|]. split; [|reflexivity].
  unfold agrees, nextLine. cbn [fst snd]. split; [|reflexivity].
  unfold Rep. cbn [buf maxTokenSize start end_ err].
  repeat split; try assumption; try lia; try discriminate.
Qed.

(** After the failure, the first [C] bytes of the line that did not
    fit are delivered as a line. *)
Lemma scanIter_Failed (C : nat) (sc : Scanner) (R : bytes) :
  Rep C sc (Failed R) ->
  exists sc', scanIter sc = Return true sc' /\ agrees C (Failed R) true sc'.
Proof.
  intros (Hb & Hm & Hse & Herr & HC & Hs & He & HW & HRlen & Hnl).
  unfold scanIter, splitStep. rewrite Herr. cbn [isErr].
  rewrite orb_true_r. fold (window sc). rewrite HW.
  assert (Hlen : length (firstn C R) = C) by (rewrite length_firstn; lia).
  unfold ScanLines. cbn [andb].
  assert (Hz : (length (firstn C R) =? 0) = false)
    by (apply Nat.eqb_neq; lia).
  rewrite Hz, Hnl. unfold advance.
  assert (Hadv : (end_ sc - start sc <? length (firstn C R)) = false)
    by (apply Nat.ltb_ge; lia).
  rewrite Hadv.
  eexists. split; [reflexivity|].
  unfold agrees, nextLine. cbn [fst snd token]. split; [|split; reflexivity].
  unfold Rep. cbn [buf maxTokenSize start end_ err]. rewrite Herr.
  repeat split; try assumption; try lia; try discriminate.
Qed.

Lemma agrees_line (C : nat) (R : bytes) (i : nat) (sc' : Scanner) :
  token sc' = Some (dropCR (firstn i R)) ->
  Rep C sc' (Open (skipn (S i) R)) ->
  IndexByte (firstn C R) x0a = Some i -> R <> [] -> C <> 0 ->
  agrees C (Open R) true sc'.
Proof.
  intros Htk HR Hi Hne HC. unfold agrees, nextLine.
  apply Nat.eqb_neq in HC. rewrite HC.
  destruct R as [|c R']; [congruence|].
  rewrite Hi. cbn [fst snd]. auto.
Qed.

(** *** [Scan] on an open scanner: the loop *)

Lemma scanLoop_open (C : nat) (n : nat) :
  forall sc R,
  Rep C sc (Open R) ->
  length (unreadBytes sc) + 2 <= n ->
  exists ok sc', scanLoop n sc = Some (ok, sc') /\ agrees C (Open R) ok sc'.
Proof.
  induction n as [|n IH]; intros sc R HR Hn; [lia|].
  cbn [scanLoop]. unfold scanIter.
  destruct (IndexByte (window sc) x0a) as [i|] eqn:Hi.
  - destruct (splitStep_line C sc R i HR Hi)
      as (sc' & Hsp & Htk & HR' & HiR & Hne & HC).
    rewrite Hsp. exists true, sc'. split; [reflexivity|].
    apply (agrees_line C R i); assumption.
  - destruct (splitStep_none C sc R HR Hi) as (sc1 & Hsp & Hsame).
    rewrite Hsp.
    assert (HR1 : Rep C sc1 (Open R)) by (apply (Rep_sameButToken C sc1 sc); assumption).
    assert (Hw1 : window sc1 = window sc).
    { destruct Hsame as (_ & _ & Hb & Hs & He & _).
      unfold window. rewrite Hb, Hs, He. reflexivity. }
    assert (Hu1 : unreadBytes sc1 = unreadBytes sc).
    { destruct Hsame as (Hr & _). unfold unreadBytes. rewrite Hr. reflexivity. }
    rewrite <- Hw1 in Hi.
    destruct (fillStep_open C sc1 R HR1 Hi)
      as [(sc' & Hf & Hag) | [(sc' & Hf & HU & HE) | (sc' & Hf & HR' & Hless)]];
      rewrite Hf.
    + exists false, sc'. split; [reflexivity | exact Hag].
    + destruct n as [|n]; [lia|]. cbn [scanLoop].
      destruct (scanIter_AtEOF C sc' R HE) as (ok & sc'' & Hit & Hag).
      rewrite Hit. exists ok, sc''. split; [reflexivity | exact Hag].
    + apply IH; [exact HR' | rewrite Hu1 in Hless; lia].
Qed.

Lemma unread_length (sc : Scanner) : unread sc = length (unreadBytes sc).
Proof. unfold unread, unreadBytes. rewrite length_skipn. reflexivity. Qed.

(** [Scan] never runs out of iterations, and does what [nextLine]
    says: it delivers the line [nextLine] gives, or none when there is
    none, and leaves the scanner in the condition [nextLine] gives. *)
Theorem Scan_refines (C : nat) (sc : Scanner) (a : reader) :
  Rep C sc a ->
  scanLoop (unread sc + 2) sc = Some (Scan sc) /\
  agrees C a (fst (Scan sc)) (snd (Scan sc)).
Proof.
  intros HR.
  assert (H : exists ok sc', scanLoop (unread sc + 2) sc = Some (ok, sc')
                             /\ agrees C a ok sc').
  { destruct a as [R | R |].
    - apply scanLoop_open; [exact HR | rewrite unread_length; lia].
    - replace (unread sc + 2) with (S (unread sc + 1)) by lia.
      cbn [scanLoop].
      destruct (scanIter_Failed C sc R HR) as (sc' & Hit & Hag).
      rewrite Hit. eauto.
    - replace (unread sc + 2) with (S (unread sc + 1)) by lia.
      cbn [scanLoop].
      destruct (scanIter_Stopped C sc HR) as (sc' & Hit & Hag & _).
      rewrite Hit. eauto. }
  destruct H as (ok & sc' & Hl & Hag).
  unfold Scan. rewrite Hl. cbn [fst snd]. auto.
Qed.

(** Every line delivered leaves fewer to deliver. *)
Lemma nextLine_less (C : nat) (a : reader) (tk : bytes) :
  fst (nextLine C a) = Some tk ->
  linesLeft (snd (nextLine C a)) < linesLeft a.
Proof.
  destruct a as [R | R |]; cbn [nextLine].
  - destruct (C =? 0); [discriminate|].
    destruct R as [|c R']; [discriminate|].
    destruct (IndexByte (firstn C (c :: R')) x0a) as [i|].
    + intros _. cbn [fst snd linesLeft]. rewrite length_skipn. simpl. lia.
    + destruct (length (c :: R') <? C); [|discriminate].
      intros _. cbn [fst snd linesLeft]. simpl. lia.
  - intros _. cbn [snd linesLeft]. lia.
  - discriminate.
Qed.

Lemma linesLeft_pending (C : nat) (sc : Scanner) (a : reader) :
  Rep C sc a -> linesLeft a <= (end_ sc - start sc) + unread sc.
Proof.
  intros HR. pose proof (window_length C sc a HR) as Hlen.
  destruct a as [R | R |]; cbn [linesLeft].
  - destruct HR as (_ & _ & _ & _ & HRw).
    rewrite HRw, length_app, Hlen, unread_length. lia.
  - destruct HR as (_ & _ & _ & _ & HC & Hs & He & _). lia.
  - lia.
Qed.

(** The scanner that [BufferScanner.Scan] sets up. *)
Lemma Rep_init (rd0 : Reader) (lineBuf b : bytes) :
  Rep (length lineBuf)
      (Buffer (NewScanner (Reset rd0 b)) lineBuf (length lineBuf))
      (Open b).
Proof.
  unfold Rep, window, unreadBytes. cbn.
  repeat split; try lia.
Qed.

(** *** The lines delivered *)

Lemma nextLine_bound (C : nat) (a : reader) :
  a <> Stopped -> bound (snd (nextLine C a)) < bound a.
Proof.
  destruct a as [R | R |]; intros Hne; cbn [nextLine]; [| |congruence].
  - destruct (C =? 0); [cbn; lia|].
    destruct R as [|c R']; [cbn; lia|].
    destruct (IndexByte (firstn C (c :: R')) x0a) as [i|].
    + cbn [snd bound]. rewrite length_skipn. simpl. lia.
    + destruct (length (c :: R') <? C); cbn; lia.
  - cbn. lia.
Qed.

Lemma nextLine_not_open (C : nat) (a : reader) (R : bytes) :
  nextLine C a <> (None, Open R).
Proof.
  destruct a as [R0 | R0 |]; cbn [nextLine]; try discriminate.
  destruct (C =? 0); [discriminate|].
  destruct R0 as [|c R']; [discriminate|].
  destruct (IndexByte (firstn C (c :: R')) x0a); [discriminate|].
  destruct (length (c :: R') <? C); discriminate.
Qed.

Lemma linesFrom_enough (C : nat) (n : nat) :
  forall m a, bound a <= n -> bound a <= m ->
  linesFrom n C a = linesFrom m C a.
Proof.
  induction n as [|n IH]; intros m a Hn Hm.
  - destruct a; cbn [bound] in Hn; try lia.
    destruct m; reflexivity.
  - destruct m as [|m].
    + destruct a; cbn [bound] in Hm; try lia. reflexivity.
    + cbn [linesFrom].
      destruct a as [R | R |].
      * pose proof (nextLine_bound C (Open R) ltac:(discriminate)) as Hb.
        destruct (nextLine C (Open R)) as [[tk|] a'] eqn:E; cbn [snd] in Hb.
        -- f_equal. apply IH; lia.
        -- destruct a' as [R' | R' |]; [|apply IH; lia|reflexivity].
           exfalso. exact (nextLine_not_open C _ _ E).
      * cbn [nextLine]. f_equal. apply IH; cbn; lia.
      * reflexivity.
Qed.

(** The lines to come are the line [nextLine] gives, if any, and then
    the lines to come after it. *)
Lemma linesOf_unfold (C : nat) (a : reader) :
  linesOf C a =
  match fst (nextLine C a) with
  | Some tk => tk :: linesOf C (snd (nextLine C a))
  | None => linesOf C (snd (nextLine C a))
  end.
Proof.
  destruct a as [R | R |].
  - unfold linesOf at 1.
    pose proof (nextLine_bound C (Open R) ltac:(discriminate)) as Hb.
    cbn [bound] in *. replace (length R + 2) with (S (length R + 1)) in * by lia.
    cbn [linesFrom].
    destruct (nextLine C (Open R)) as [[tk|] a'] eqn:E; cbn [fst snd] in *.
    + f_equal. apply linesFrom_enough; lia.
    + destruct a' as [R' | R' |].
      * exfalso. exact (nextLine_not_open C _ _ E).
      * apply linesFrom_enough; cbn in *; lia.
      * reflexivity.
  - reflexivity.
  - reflexivity.
Qed.

(** A stopped scanner keeps its error. *)
Lemma Scan_Stopped_err (C : nat) (sc : Scanner) :
  Rep C sc Stopped -> err (snd (Scan sc)) = err sc.
Proof.
  intros HR. unfold Scan.
  replace (unread sc + 2) with (S (unread sc + 1)) by lia.
  cbn [scanLoop].
  destruct (scanIter_Stopped C sc HR) as (sc' & Hit & _ & He).
  rewrite Hit. exact He.
Qed.

(** Only a stopped scanner holds the error [io.EOF]. *)
Lemma Rep_EOF (C : nat) (sc : Scanner) (a : reader) :
  Rep C sc a -> err sc = Some ioEOF -> a = Stopped.
Proof.
  intros (_ & _ & _ & H) He. destruct a as [R | R |]; [| |reflexivity].
  - destruct H as [H _]. congruence.
  - destruct H as [H _]. congruence.
Qed.

(** More iterations than enough change nothing. *)
Lemma scanLoop_more (n k : nat) :
  forall sc res, scanLoop n sc = Some res -> scanLoop (n + k) sc = Some res.
Proof.
  induction n as [|n IH]; intros sc res H; [discriminate|].
  cbn [Nat.add scanLoop] in *.
  destruct (scanIter sc) as [ok sc' | sc']; [exact H | apply IH; exact H].
Qed.

End bufio_facts.

(** ** Properties of [Scan] *)

Module scan_facts.

Import gobytes scanner reference invariants examples bufio_facts.

Lemma Equal_eq (a b : bytes) : Equal a b = true <-> a = b.
Proof.
  revert b. induction a as [|x a IH]; intros [|y b]; simpl;
    try (split; [discriminate | discriminate]); [tauto|].
  rewrite andb_true_iff, IH. split.
  - intros [Hxy Hab]. apply Byte.byte_dec_bl in Hxy. congruence.
  - intros H. injection H as -> ->. split; [apply Byte.byte_dec_lb|]; reflexivity.
Qed.

(** One turn of the inner loop, spelt out. *)
Lemma forScan_S (fuel k : nat) (f : lineFunc) (st : loopState) :
  forScan (S fuel) k f st =
  if fst (bufio.Scan (sc st)) then
    if matches (name f) (bufio.Bytes (snd (bufio.Scan (sc st)))) then
      {| sc := snd (bufio.Scan (sc st));
         bs := snd (Fields (bs st) (bufio.Bytes (snd (bufio.Scan (sc st)))));
         nlines := S (nlines st);
         calls := calls st ++ [callOn k st (snd (bufio.Scan (sc st)))] |}
    else forScan fuel k f (nextState st (snd (bufio.Scan (sc st))))
  else {| sc := snd (bufio.Scan (sc st)); bs := bs st; nlines := nlines st;
          calls := calls st |}.
Proof.
  cbn [forScan]. destruct (bufio.Scan (sc st)) as [ok sc1]. cbn [fst snd].
  destruct ok; [|reflexivity].
  unfold Fields, matches, nextState, callOn. cbn [firstn fst snd].
  destruct ((1 <? length (asciiByteFields (bufio.Bytes sc1) []))
            && Equal (name f) (nth 0 (asciiByteFields (bufio.Bytes sc1) []) []));
    reflexivity.
Qed.

(** The search for one [lineFunc] ends without a call, or with one call
    for it, on a line delivered during the search. *)
Lemma forScan_cases (fuel k : nat) (f : lineFunc) :
  forall st,
  let st' := forScan fuel k f st in
  nlines st <= nlines st' /\
  (calls st' = calls st \/
   exists c, calls st' = calls st ++ [c] /\ reg c = k /\
             nlines st <= lineNo c < nlines st' /\ fromLine (name f) c).
Proof.
  induction fuel as [|fuel IH]; intros st.
  - simpl. auto.
  - cbv zeta. rewrite forScan_S.
    destruct (fst (bufio.Scan (sc st))); [|simpl; auto].
    destruct (matches (name f) (bufio.Bytes (snd (bufio.Scan (sc st))))) eqn:Hm.
    + cbn [nlines calls]. split; [lia|]. right.
      eexists. split; [reflexivity|].
      unfold callOn, fromLine. cbn [reg lineNo line args].
      unfold matches in Hm. apply andb_true_iff in Hm. destruct Hm as [Hl He].
      apply Nat.ltb_lt in Hl. apply Equal_eq in He. symmetry in He.
      repeat split; auto; lia.
    + specialize (IH (nextState st (snd (bufio.Scan (sc st))))).
      cbv zeta in IH. cbn [nextState nlines calls] in IH.
      destruct IH as [Hn Hc]. split; [lia|].
      destruct Hc as [Hc | (c & Hc & Hr & Hl & Hf)]; [left; exact Hc|].
      right. exists c.
      split; [exact Hc | split; [exact Hr | split; [lia | exact Hf]]].
Qed.

(** *** The order of the calls *)

Lemma StronglySorted_snoc (A : Type) (R : A -> A -> Prop) (l : list A) (x : A) :
  StronglySorted R l -> Forall (fun y => R y x) l ->
  StronglySorted R (l ++ [x]).
Proof.
  induction 1 as [|y l Hs IH Hy]; intros Hall; simpl.
  - constructor; constructor.
  - inversion Hall; subst. constructor; [apply IH; assumption|].
    apply Forall_app. split; [assumption|]. constructor; [assumption|constructor].
Qed.

Lemma orderly_weaken (lfs : list lineFunc) (k k' n n' : nat) (cs : list Call) :
  k <= k' -> n <= n' -> orderly lfs k n cs -> orderly lfs k' n' cs.
Proof.
  intros Hk Hn [Hs Hf]. split; [exact Hs|].
  eapply Forall_impl; [|exact Hf].
  intros c (H1 & H2 & H3). repeat split; try lia. exact H3.
Qed.

Lemma rangeLineFuncs_orderly (fs : list lineFunc) :
  forall pre st,
  orderly (pre ++ fs) (length pre) (nlines st) (calls st) ->
  let st' := rangeLineFuncs (length pre) fs st in
  orderly (pre ++ fs) (length (pre ++ fs)) (nlines st') (calls st').
Proof.
  induction fs as [|f fs IH]; intros pre st Ho; cbv zeta.
  - rewrite app_nil_r in *. exact Ho.
  - cbn [rangeLineFuncs].
    set (st1 := forScan (pending (sc st) + 1) (length pre) f st).
    specialize (IH (pre ++ [f]) st1).
    replace ((pre ++ [f]) ++ fs) with (pre ++ f :: fs) in IH
      by (rewrite <- app_assoc; reflexivity).
    replace (length (pre ++ [f])) with (S (length pre)) in IH
      by (rewrite length_app; simpl; lia).
    apply IH.
    pose proof (forScan_cases (pending (sc st) + 1) (length pre) f st) as Hc.
    cbv zeta in Hc. fold st1 in Hc. destruct Hc as [Hn Hc].
    destruct Hc as [Hc | (c & Hc & Hr & Hl & Hf)]; rewrite Hc.
    + apply (orderly_weaken _ (length pre) _ (nlines st)); [lia | lia | exact Ho].
    + destruct Ho as [Hs Hall]. split.
      * apply StronglySorted_snoc; [exact Hs|].
        eapply Forall_impl; [|exact Hall].
        intros c0 (H1 & H2 & _). unfold before. lia.
      * apply Forall_app. split.
        -- eapply Forall_impl; [|exact Hall].
           intros c0 (H1 & H2 & H3). repeat split; try lia. exact H3.
        -- constructor; [|constructor].
           repeat split; try lia.
           exists f. split; [|exact Hf].
           rewrite Hr, nth_error_app2, Nat.sub_diag by lia. reflexivity.
Qed.

(** *** The lines the calls are made on *)

Lemma Bytes_token (sc1 : bufio.Scanner) (tk : bytes) :
  bufio.token sc1 = Some tk -> bufio.Bytes sc1 = tk.
Proof. unfold bufio.Bytes. intros ->. reflexivity. Qed.

Lemma seen_snoc (seen : list bytes) (tk : bytes) (cs : list Call) :
  Forall (fun c => nth_error seen (lineNo c) = Some (line c)) cs ->
  Forall (fun c => nth_error (seen ++ [tk]) (lineNo c) = Some (line c)) cs.
Proof.
  intros H. eapply Forall_impl; [|exact H].
  intros c Hc. rewrite nth_error_app1; [exact Hc|].
  apply nth_error_Some. congruence.
Qed.

Lemma forScan_tracks (C : nat) (b : bytes) (fuel k : nat) (f : lineFunc) :
  forall st, tracks C b st -> tracks C b (forScan fuel k f st).
Proof.
  induction fuel as [|fuel IH]; intros st HT; [exact HT|].
  rewrite forScan_S.
  destruct HT as (a & seen & HR & Hlen & Hd & Hc).
  destruct (Scan_refines C (sc st) a HR) as [_ [HR' Hag]].
  rewrite (linesOf_unfold C a) in Hd.
  destruct (fst (nextLine C a)) as [tk|].
  - destruct Hag as [Hok Htk]. rewrite Hok.
    apply Bytes_token in Htk.
    assert (Hd' : delivered C b = (seen ++ [tk]) ++ linesOf C (snd (nextLine C a))).
    { rewrite <- app_assoc. exact Hd. }
    assert (Hlen' : length (seen ++ [tk]) = S (nlines st)).
    { rewrite length_app. simpl. lia. }
    destruct (matches (name f) (bufio.Bytes (snd (bufio.Scan (sc st))))).
    + exists (snd (nextLine C a)), (seen ++ [tk]).
      cbn [sc nlines calls].
      split; [exact HR' | split; [exact Hlen' | split; [exact Hd'|]]].
      apply Forall_app. split; [apply seen_snoc; exact Hc|].
      constructor; [|constructor].
      unfold callOn. cbn [lineNo line].
      rewrite <- Hlen, nth_error_app2, Nat.sub_diag by lia.
      rewrite Htk. reflexivity.
    + apply IH. exists (snd (nextLine C a)), (seen ++ [tk]).
      unfold nextState. cbn [sc nlines calls].
      split; [exact HR' | split; [exact Hlen' | split; [exact Hd'|]]].
      apply seen_snoc. exact Hc.
  - rewrite Hag. exists (snd (nextLine C a)), seen.
    cbn [sc nlines calls].
    split; [exact HR' | split; [exact Hlen | split; [exact Hd | exact Hc]]].
Qed.

Lemma rangeLineFuncs_tracks (C : nat) (b : bytes) (fs : list lineFunc) :
  forall k st, tracks C b st -> tracks C b (rangeLineFuncs k fs st).
Proof.
  induction fs as [|f fs IH]; intros k st HT; [exact HT|].
  cbn [rangeLineFuncs]. apply IH. apply forScan_tracks. exact HT.
Qed.

Lemma startScan_tracks (bs0 : BufferScanner) (b : bytes) :
  tracks (length (lineBuf bs0)) b (startScan bs0 b).
Proof.
  exists (Open b), []. unfold startScan. cbn [sc nlines calls lineBuf].
  split; [apply Rep_init | split; [reflexivity | split; [reflexivity|]]].
  constructor.
Qed.

(** *** A scanner that has stopped *)

Lemma forScan_Stopped (C : nat) (fuel k : nat) (f : lineFunc) (st : loopState) :
  Rep C (sc st) Stopped ->
  let st' := forScan fuel k f st in
  Rep C (sc st') Stopped /\ calls st' = calls st /\ nlines st' = nlines st /\
  bufio.err (sc st') = bufio.err (sc st).
Proof.
  intros HR. destruct fuel as [|fuel]; [simpl; auto|].
  cbv zeta. rewrite forScan_S.
  destruct (Scan_refines C (sc st) Stopped HR) as [_ [HR' Hag]].
  cbn [nextLine fst snd] in HR', Hag. rewrite Hag.
  cbn [sc calls nlines].
  split; [exact HR' | split; [reflexivity | split; [reflexivity|]]].
  apply (Scan_Stopped_err C). exact HR.
Qed.

Lemma rangeLineFuncs_Stopped (C : nat) (fs : list lineFunc) :
  forall k st,
  Rep C (sc st) Stopped ->
  calls (rangeLineFuncs k fs st) = calls st /\
  bufio.err (sc (rangeLineFuncs k fs st)) = bufio.err (sc st).
Proof.
  induction fs as [|f fs IH]; intros k st HR; [auto|].
  cbn [rangeLineFuncs].
  destruct (forScan_Stopped C (pending (sc st) + 1) k f st HR)
    as (HR' & Hc & _ & He).
  destruct (IH (S k) _ HR') as [Hc' He'].
  rewrite Hc', He'. auto.
Qed.

Lemma rangeLineFuncs_app (l1 l2 : list lineFunc) :
  forall k st,
  rangeLineFuncs k (l1 ++ l2) st
  = rangeLineFuncs (k + length l1) l2 (rangeLineFuncs k l1 st).
Proof.
  induction l1 as [|f l1 IH]; intros k st; simpl.
  - rewrite Nat.add_0_r. reflexivity.
  - rewrite IH. f_equal. lia.
Qed.

(** *** The inner loop has turns enough *)

Lemma forScan_enough (C : nat) (k : nat) (f : lineFunc) (n : nat) :
  forall m st a,
  Rep C (sc st) a -> linesLeft a < n -> linesLeft a < m ->
  forScan n k f st = forScan m k f st.
Proof.
  induction n as [|n IH]; intros m st a HR Hn Hm; [lia|].
  destruct m as [|m]; [lia|].
  rewrite !forScan_S.
  destruct (Scan_refines C (sc st) a HR) as [_ [HR' Hag]].
  destruct (fst (bufio.Scan (sc st))); [|reflexivity].
  destruct (matches (name f) (bufio.Bytes (snd (bufio.Scan (sc st)))));
    [reflexivity|].
  destruct (fst (nextLine C a)) as [tk|] eqn:E; [|discriminate Hag].
  pose proof (nextLine_less C a tk E) as Hless.
  apply (IH m _ (snd (nextLine C a))); [exact HR' | lia | lia].
Qed.

(** With more turns than [pending + 1] the search does the same. *)
Lemma forScan_pending (C : nat) (k : nat) (f : lineFunc) (st : loopState)
    (a : reader) (extra : nat) :
  Rep C (sc st) a ->
  forScan (pending (sc st) + 1 + extra) k f st
  = forScan (pending (sc st) + 1) k f st.
Proof.
  intros HR. pose proof (linesLeft_pending C (sc st) a HR) as Hl.
  apply (forScan_enough C k f _ _ st a HR); unfold pending; lia.
Qed.

(** *** The claims about [Scan] *)

(** C3.  For every input and every list of registrations, [Scan]
    matches the registrations in the order supplied, in one forward
    pass: in the sequence of calls the positions of the registrations
    increase strictly, and so do the numbers of the lines they fired on,
    so the line matched by a registration is strictly after the line
    matched by the one before it.  Every call is for a registration of
    the list, on a line of two fields or more whose first field is the
    name, and that line is the line of that number among those the
    scanner delivers from the input. *)
Theorem Scan_in_order (bs0 : BufferScanner) (b : bytes) :
  StronglySorted before (snd (Scan bs0 b)) /\
  Forall (fun c =>
            (exists f, nth_error (lineFuncs bs0) (reg c) = Some f /\
                       fromLine (name f) c) /\
            nth_error (delivered (length (lineBuf bs0)) b) (lineNo c)
            = Some (line c))
         (snd (Scan bs0 b)).
Proof.
  unfold Scan, ScanState. cbn [snd].
  pose proof (rangeLineFuncs_orderly (lineFuncs bs0) [] (startScan bs0 b)) as Ho.
  cbn [app length] in Ho. cbv zeta in Ho.
  specialize (Ho ltac:(split; constructor)).
  destruct Ho as [Hs Hall]. split; [exact Hs|].
  pose proof (rangeLineFuncs_tracks (length (lineBuf bs0)) b (lineFuncs bs0) 0
                (startScan bs0 b) (startScan_tracks bs0 b))
    as (a & seen & _ & _ & Hd & Hc).
  rewrite Forall_forall in *. intros c Hin. split.
  - destruct (Hall c Hin) as (_ & _ & H). exact H.
  - rewrite Hd, nth_error_app1; [exact (Hc c Hin)|].
    apply nth_error_Some. rewrite (Hc c Hin). discriminate.
Qed.

(** C7.  During a scan, a line that splits into fewer than two fields
    is skipped and never matched: whatever the name searched for, also
    when it equals the only field of the line, the turn of the loop that
    reads the line makes no call and the search goes on with the next
    line. *)
Theorem short_line_skipped (fuel k : nat) (f : lineFunc) (st : loopState) :
  fst (bufio.Scan (sc st)) = true ->
  length (asciiByteFields (bufio.Bytes (snd (bufio.Scan (sc st)))) []) < 2 ->
  forScan (S fuel) k f st
  = forScan fuel k f (nextState st (snd (bufio.Scan (sc st)))) /\
  calls (nextState st (snd (bufio.Scan (sc st)))) = calls st.
Proof.
  intros Hok Hlen. split; [|reflexivity].
  rewrite forScan_S, Hok. unfold matches.
  assert (H : (1 <? length (asciiByteFields
                              (bufio.Bytes (snd (bufio.Scan (sc st)))) [])) = false)
    by (apply Nat.ltb_ge; lia).
  rewrite H. reflexivity.
Qed.

Lemma short_line_skipped_witness :
  forScan 9 0 (lf_A) (startScan (bsA 16) bareInput)
  = forScan 8 0 (lf_A)
      (nextState (startScan (bsA 16) bareInput)
                 (snd (bufio.Scan (sc (startScan (bsA 16) bareInput))))) /\
  calls (nextState (startScan (bsA 16) bareInput)
                   (snd (bufio.Scan (sc (startScan (bsA 16) bareInput)))))
  = calls (startScan (bsA 16) bareInput).
Proof.
  apply (short_line_skipped 8 0 lf_A (startScan (bsA 16) bareInput)).
  - vm_compute. reflexivity.
  - vm_compute. lia.
Defined.

(** The line with the bare name is passed over; the call is made on the
    line after it. *)
Example bare_name_not_matched :
  bufio.Bytes (snd (bufio.Scan (sc (startScan (bsA 16) bareInput)))) = name lf_A /\
  snd (Scan (bsA 16) bareInput)
  = [{| reg := 0; lineNo := 1; line := lineA; args := [one] |}].
Proof. split; vm_compute; reflexivity. Qed.

Lemma stateBefore_tracks (bs0 : BufferScanner) (b : bytes) (k : nat) :
  tracks (length (lineBuf bs0)) b (stateBefore bs0 b k).
Proof.
  unfold stateBefore. apply rangeLineFuncs_tracks. apply startScan_tracks.
Qed.

(** [Scan], cut at the search for the [lineFunc] at position [k]. *)
Lemma ScanState_split (bs0 : BufferScanner) (b : bytes) (k : nat) (f : lineFunc) :
  nth_error (lineFuncs bs0) k = Some f ->
  ScanState bs0 b
  = rangeLineFuncs (S k) (skipn (S k) (lineFuncs bs0))
      (forScan (pending (sc (stateBefore bs0 b k)) + 1) k f (stateBefore bs0 b k)).
Proof.
  intros Hk. unfold ScanState, stateBefore.
  assert (Hlt : k < length (lineFuncs bs0)).
  { apply nth_error_Some. congruence. }
  assert (Hsplit : lineFuncs bs0
                   = firstn k (lineFuncs bs0) ++ f :: skipn (S k) (lineFuncs bs0)).
  { rewrite <- (firstn_skipn k (lineFuncs bs0)) at 1. f_equal.
    clear Hlt. revert k Hk. generalize (lineFuncs bs0) as l.
    induction l as [|x l IH]; intros [|k] Hk; simpl in *; try discriminate.
    - congruence.
    - apply IH. exact Hk. }
  rewrite Hsplit at 1. rewrite rangeLineFuncs_app.
  rewrite length_firstn, Nat.min_l by lia. reflexivity.
Qed.

(** C6.  When the lines are exhausted before a match for the
    registration at position [k] is found (its search ends without a
    call and with the line reader at the end of the input) the calls of
    the whole scan are those made before the search began: neither this
    registration nor a later one is invoked.  No error is raised: the
    scan ends with the line reader holding [io.EOF], which is its
    normal end. *)
Theorem lines_exhausted (bs0 : BufferScanner) (b : bytes) (k : nat) (f : lineFunc) :
  nth_error (lineFuncs bs0) k = Some f ->
  let st := stateBefore bs0 b k in
  let st' := forScan (pending (sc st) + 1) k f st in
  calls st' = calls st ->
  bufio.err (sc st') = Some bufio.ioEOF ->
  snd (Scan bs0 b) = calls st /\
  Forall (fun c => reg c < k) (snd (Scan bs0 b)) /\
  bufio.err (sc (ScanState bs0 b)) = Some bufio.ioEOF.
Proof.
  intros Hk st st' Hcalls Herr.
  assert (Hlt : k < length (lineFuncs bs0)).
  { apply nth_error_Some. congruence. }
  pose proof (forScan_tracks (length (lineBuf bs0)) b (pending (sc st) + 1) k f st
                (stateBefore_tracks bs0 b k)) as (a & _ & HR & _).
  fold st' in HR.
  pose proof (Rep_EOF _ _ _ HR Herr) as Ha. subst a.
  destruct (rangeLineFuncs_Stopped _ (skipn (S k) (lineFuncs bs0)) (S k) st' HR)
    as [Hc He].
  assert (Hscan : snd (Scan bs0 b) = calls st).
  { unfold Scan. cbn [snd]. rewrite (ScanState_split bs0 b k f Hk).
    fold st st'. rewrite Hc. exact Hcalls. }
  split; [exact Hscan|]. split.
  - rewrite Hscan. unfold st, stateBefore.
    pose proof (rangeLineFuncs_orderly (firstn k (lineFuncs bs0)) []
                  (startScan bs0 b)) as Ho.
    cbn [app length] in Ho. cbv zeta in Ho.
    specialize (Ho ltac:(split; constructor)).
    destruct Ho as [_ Hall]. rewrite length_firstn, Nat.min_l in Hall by lia.
    eapply Forall_impl; [|exact Hall]. intros c (H & _). exact H.
  - rewrite (ScanState_split bs0 b k f Hk). fold st st'. rewrite He. exact Herr.
Qed.

Lemma lines_exhausted_witness :
  snd (Scan (bsAB 16) onlyA) = calls (stateBefore (bsAB 16) onlyA 1) /\
  Forall (fun c => reg c < 1) (snd (Scan (bsAB 16) onlyA)) /\
  bufio.err (sc (ScanState (bsAB 16) onlyA)) = Some bufio.ioEOF.
Proof.
  apply (lines_exhausted (bsAB 16) onlyA 1 lf_B).
  - reflexivity.
  - vm_compute. reflexivity.
  - vm_compute. reflexivity.
Defined.

(** The input with the line of [A] only: [A] fires, [B] does not. *)
Example missing_line :
  snd (Scan (bsAB 16) onlyA)
  = [{| reg := 0; lineNo := 0; line := lineA; args := [one] |}].
Proof. vm_compute. reflexivity. Qed.

(** Both lines, in the order of the registrations: both fire. *)
Example both_in_order :
  snd (Scan (bsAB 16) inOrder)
  = [{| reg := 0; lineNo := 0; line := lineA; args := [one] |};
     {| reg := 1; lineNo := 1; line := lineB; args := [two] |}].
Proof. vm_compute. reflexivity. Qed.

(** A line nobody asked for between them is passed over. *)
Example extra_line_tolerated :
  snd (Scan (bsAB 16) withExtra)
  = [{| reg := 0; lineNo := 0; line := lineA; args := [one] |};
     {| reg := 1; lineNo := 2; line := lineB; args := [two] |}].
Proof. vm_compute. reflexivity. Qed.

(** The lines in the other order: the search for [A] passes over the
    line of [B], which is then behind the scanner. *)
Example out_of_order :
  snd (Scan (bsAB 16) outOfOrder)
  = [{| reg := 0; lineNo := 1; line := lineA; args := [one] |}].
Proof. vm_compute. reflexivity. Qed.

(** C2, as the code has it.  When the line at the head of what is left
    to read does not fit the line buffer (none of the next [C] bytes is
    a newline, [C] being the capacity), the search for the registration
    in hand ends there: no call is made, no line is counted, and the
    failure is [ErrTooLong] in the [bufio.Scanner] local to [Scan],
    which is no part of what [Scan] hands back. *)
Theorem overlong_line_not_reported (C : nat) (st : loopState) (R : bytes)
    (fuel k : nat) (f : lineFunc) :
  0 < C ->
  Rep C (sc st) (Open R) ->
  C <= length R ->
  IndexByte (firstn C R) x0a = None ->
  let st' := forScan (S fuel) k f st in
  calls st' = calls st /\ nlines st' = nlines st /\
  bufio.err (sc st') = Some bufio.ErrTooLong /\
  Rep C (sc st') (Failed R).
Proof.
  intros HC HR Hlen Hnl. cbv zeta. rewrite forScan_S.
  destruct (Scan_refines C (sc st) (Open R) HR) as [_ [HR' Hag]].
  unfold nextLine in HR', Hag.
  assert (HC0 : (C =? 0) = false) by (apply Nat.eqb_neq; lia).
  rewrite HC0 in HR', Hag.
  destruct R as [|c R']; [simpl in Hlen; lia|].
  rewrite Hnl in HR', Hag.
  assert (Hlt : (length (c :: R') <? C) = false) by (apply Nat.ltb_ge; exact Hlen).
  rewrite Hlt in HR', Hag. cbn [fst snd] in HR', Hag.
  rewrite Hag. cbn [sc calls nlines].
  split; [reflexivity | split; [reflexivity | split; [|exact HR']]].
  destruct HR' as (_ & _ & _ & He & _). exact He.
Qed.

Lemma overlong_line_not_reported_witness :
  calls (forScan 1 0 lf_A (startScan (bsAB 8) longInput))
  = calls (startScan (bsAB 8) longInput) /\
  nlines (forScan 1 0 lf_A (startScan (bsAB 8) longInput))
  = nlines (startScan (bsAB 8) longInput) /\
  bufio.err (sc (forScan 1 0 lf_A (startScan (bsAB 8) longInput)))
  = Some bufio.ErrTooLong /\
  Rep 8 (sc (forScan 1 0 lf_A (startScan (bsAB 8) longInput))) (Failed longInput).
Proof.
  apply (overlong_line_not_reported 8 (startScan (bsAB 8) longInput) longInput
           0 0 lf_A).
  - lia.
  - vm_compute. repeat split; lia.
  - vm_compute. lia.
  - vm_compute. reflexivity.
Defined.

(** C2 fails as stated: with a line buffer of 8 bytes and the
    registrations [A, B], the input whose one line is the 12 bytes
    [B 1234567890] makes [Scan] return as after any other scan, having
    called [B] with the field [123456], which is the head of the field
    [1234567890] of the line; the error stays in the local scanner. *)
Lemma overlong_line_truncated :
  length (lineBuf (bsAB 8)) < length longLine /\
  longInput = longLine ++ [NL] /\
  snd (Scan (bsAB 8) longInput)
  = [{| reg := 1; lineNo := 0; line := cutLine; args := [cutField] |}] /\
  [cutField] <> skipn 1 (asciiByteFields longLine []) /\
  bufio.err (sc (ScanState (bsAB 8) longInput)) = Some bufio.ErrTooLong.
Proof.
  split; [vm_compute; lia|]. split; [reflexivity|].
  split; [vm_compute; reflexivity|]. split; [|vm_compute; reflexivity].
  vm_compute. discriminate.
Qed.

(** *** The loops have turns enough, and the buffer keeps its size *)

Lemma rangeLineFuncsWith_same (C : nat) (b : bytes) (extra : nat)
    (fs : list lineFunc) :
  forall k st,
  tracks C b st ->
  rangeLineFuncsWith extra k fs st = rangeLineFuncs k fs st.
Proof.
  induction fs as [|f fs IH]; intros k st HT; [reflexivity|].
  cbn [rangeLineFuncsWith rangeLineFuncs].
  destruct HT as (a & seen & HR & Hrest).
  rewrite (forScan_pending C k f st a extra HR).
  apply IH. apply forScan_tracks. exists a, seen. split; assumption.
Qed.

Lemma Scan_keeps_capacity (bs0 : BufferScanner) (b : bytes) :
  length (lineBuf (fst (Scan bs0 b))) = length (lineBuf bs0) /\
  lineFuncs (fst (Scan bs0 b)) = lineFuncs bs0.
Proof.
  unfold Scan, ScanState. cbn [fst lineBuf lineFuncs]. split.
  - pose proof (rangeLineFuncs_tracks (length (lineBuf bs0)) b (lineFuncs bs0) 0
                  (startScan bs0 b) (startScan_tracks bs0 b))
      as (a & seen & HR & _).
    destruct HR as (Hb & _). exact Hb.
  - assert (H : forall fs k st, lineFuncs (bs (rangeLineFuncs k fs st))
                                = lineFuncs (bs st)).
    { induction fs as [|f fs IH]; intros k st; [reflexivity|].
      cbn [rangeLineFuncs]. rewrite IH.
      generalize (pending (sc st) + 1). intros fuel. revert st.
      induction fuel as [|fuel IHf]; intros st; [reflexivity|].
      rewrite forScan_S.
      destruct (fst (bufio.Scan (sc st))); [|reflexivity].
      destruct (matches (name f) _); [reflexivity|].
      rewrite IHf. reflexivity. }
    rewrite H. reflexivity.
Qed.

(** The lines delivered from two of the inputs: all three lines when
    they fit, and the head of the line that does not. *)
Example delivered_withExtra :
  delivered 16 withExtra = [lineA; lineX; lineB].
Proof. vm_compute. reflexivity. Qed.

Example delivered_longInput : delivered 8 longInput = [cutLine].
Proof. vm_compute. reflexivity. Qed.

End scan_facts.

(** ** More properties of the meters *)

Module meter_more.

Import meter meter_ops examples.
Local Open Scope Z_scope.

Lemma SampleAt_v (m : scalarMeter) (t0 : Time) (v0 : Z) :
  v (SampleAt m t0 v0) = v0.
Proof. reflexivity. Qed.

Lemma SampleAt_r_counter (m : scalarMeter) (t0 : Time) (v0 : Z) :
  f m = counterSetFn ->
  r (SampleAt m t0 v0) = if v0 <? v m then t0 else r m.
Proof.
  intros Hf. unfold SampleAt. rewrite Hf. cbn [call].
  unfold counterSet, Value. destruct (v0 <? v m); reflexivity.
Qed.

Lemma SampleAt_keeps_f (m : scalarMeter) (t0 : Time) (v0 : Z) :
  f (SampleAt m t0 v0) = f m /\ md (SampleAt m t0 v0) = md m.
Proof.
  split; [apply meter_facts.SampleAt_f | apply meter_facts.SampleAt_md].
Qed.

Lemma sampleAll_app (m : scalarMeter) (l1 l2 : list (Time * Z)) :
  sampleAll m (l1 ++ l2) = sampleAll (sampleAll m l1) l2.
Proof. unfold sampleAll. apply fold_left_app. Qed.

Lemma sampleAll_f (l : list (Time * Z)) :
  forall m, f (sampleAll m l) = f m.
Proof.
  induction l as [|s l IH]; intros m; [reflexivity|].
  cbn [sampleAll fold_left]. fold (sampleAll (SampleAt m (fst s) (snd s)) l).
  rewrite IH. apply SampleAt_keeps_f.
Qed.

Lemma last_nonempty (A : Type) (x : A) (l : list A) (d1 d2 : A) :
  last (x :: l) d1 = last (x :: l) d2.
Proof.
  revert x. induction l as [|y l IH]; intros x; [reflexivity|].
  change (last (y :: l) d1 = last (y :: l) d2). apply IH.
Qed.

Lemma sampleAll_v (l : list (Time * Z)) :
  forall m, v (sampleAll m l) = lastValue (v m) l.
Proof.
  induction l as [|s l IH]; intros m; [reflexivity|].
  cbn [sampleAll fold_left]. fold (sampleAll (SampleAt m (fst s) (snd s)) l).
  rewrite IH, SampleAt_v. unfold lastValue.
  destruct l as [|s' l']; [reflexivity|].
  f_equal. rewrite (last_nonempty _ s' l' (0, snd s) (0, v m)).
  reflexivity.
Qed.

Lemma ascending_keeps_r (l : list (Time * Z)) :
  forall m, f m = counterSetFn -> ascending (v m) l ->
  r (sampleAll m l) = r m.
Proof.
  induction l as [|s l IH]; intros m Hf Ha; [reflexivity|].
  destruct Ha as [Hle Ha].
  cbn [sampleAll fold_left]. fold (sampleAll (SampleAt m (fst s) (snd s)) l).
  rewrite IH.
  - rewrite SampleAt_r_counter by exact Hf.
    apply Z.ltb_ge in Hle. rewrite Hle. reflexivity.
  - rewrite (proj1 (SampleAt_keeps_f m _ _)). exact Hf.
  - rewrite SampleAt_v. exact Ha.
Qed.

(** X2.  A counter whose samples never go down keeps its reset time, and
    holds the last sample. *)
Theorem ascending_samples_keep_reset (m : scalarMeter) (l : list (Time * Z)) :
  f m = counterSetFn ->
  ascending (v m) l ->
  r (sampleAll m l) = r m /\ v (sampleAll m l) = lastValue (v m) l.
Proof.
  intros Hf Ha. split; [apply ascending_keeps_r; assumption | apply sampleAll_v].
Qed.

Lemma ascending_samples_keep_reset_witness :
  r (sampleAll sampled100 [(2, 100); (3, 250); (4, 250)]) = r sampled100 /\
  v (sampleAll sampled100 [(2, 100); (3, 250); (4, 250)])
  = lastValue (v sampled100) [(2, 100); (3, 250); (4, 250)].
Proof.
  apply (ascending_samples_keep_reset sampled100 [(2, 100); (3, 250); (4, 250)]).
  - reflexivity.
  - vm_compute. repeat split; discriminate.
Defined.

(** X3.  After any samples, the reset time of a counter is the time of the
    last sample that was below the one before it: when such a sample is
    followed by samples that never go down, its time is the reset time. *)
Theorem reset_time_is_last_drop (m : scalarMeter)
    (l1 l2 : list (Time * Z)) (t0 : Time) (v0 : Z) :
  f m = counterSetFn ->
  v0 < lastValue (v m) l1 ->
  ascending v0 l2 ->
  r (sampleAll m (l1 ++ (t0, v0) :: l2)) = t0.
Proof.
  intros Hf Hdrop Ha.
  rewrite sampleAll_app.
  cbn [sampleAll fold_left fst snd].
  fold (sampleAll m l1).
  fold (sampleAll (SampleAt (sampleAll m l1) t0 v0) l2).
  assert (Hf1 : f (sampleAll m l1) = counterSetFn) by (rewrite sampleAll_f; exact Hf).
  rewrite ascending_keeps_r.
  - rewrite SampleAt_r_counter by exact Hf1.
    rewrite sampleAll_v. apply Z.ltb_lt in Hdrop. rewrite Hdrop. reflexivity.
  - rewrite (proj1 (SampleAt_keeps_f _ _ _)). exact Hf1.
  - rewrite SampleAt_v. exact Ha.
Qed.

Lemma reset_time_is_last_drop_witness :
  r (sampleAll sampled100 ([(2, 70); (3, 300)] ++ (4, 50) :: [(5, 50); (6, 90)])) = 4.
Proof.
  apply (reset_time_is_last_drop sampled100 [(2, 70); (3, 300)] [(5, 50); (6, 90)] 4 50).
  - reflexivity.
  - vm_compute. reflexivity.
  - vm_compute. repeat split; discriminate.
Defined.

(** X4.  A gauge never changes its reset time, whatever the samples. *)
Theorem gauge_samples_keep_reset (l : list (Time * Z)) :
  forall m, f m = gaugeSetFn ->
  r (sampleAll m l) = r m /\ v (sampleAll m l) = lastValue (v m) l.
Proof.
  intros m Hf. split; [|apply sampleAll_v].
  revert m Hf. induction l as [|s l IH]; intros m Hf; [reflexivity|].
  cbn [sampleAll fold_left]. fold (sampleAll (SampleAt m (fst s) (snd s)) l).
  rewrite IH.
  - unfold SampleAt. rewrite Hf. reflexivity.
  - rewrite (proj1 (SampleAt_keeps_f m _ _)). exact Hf.
Qed.

Lemma gauge_samples_keep_reset_witness :
  r (sampleAll gauge100 [(2, 50); (3, 7)]) = r gauge100 /\
  v (sampleAll gauge100 [(2, 50); (3, 7)]) = lastValue (v gauge100) [(2, 50); (3, 7)].
Proof.
  apply (gauge_samples_keep_reset [(2, 50); (3, 7)] gauge100). reflexivity.
Defined.

(** X5.  The first sample after [DefineCounter] or after [ResetAt] is never
    taken for a reset: a [uint64] is not below zero.  The reset time
    stays the time of the definition, or of the [ResetAt]. *)
Theorem first_sample_is_no_reset (now t0 t1 : Time) (v0 : Z)
    (d : MeterDescription) (m : scalarMeter) :
  isUint64 v0 ->
  f m = counterSetFn ->
  r (SampleAt (DefineCounter now d) t0 v0) = now /\
  r (SampleAt (ResetAt m t1) t0 v0) = t1 /\
  Value (SampleAt (ResetAt m t1) t0 v0) = (t0, v0).
Proof.
  intros [Hv _] Hf.
  assert (Hlt : (v0 <? 0) = false) by (apply Z.ltb_ge; exact Hv).
  split; [|split; [|reflexivity]].
  - rewrite SampleAt_r_counter by reflexivity.
    cbn [DefineCounter v r]. rewrite Hlt. reflexivity.
  - rewrite SampleAt_r_counter by exact Hf.
    cbn [ResetAt v r]. rewrite Hlt. reflexivity.
Qed.

Lemma first_sample_is_no_reset_witness :
  r (SampleAt (DefineCounter 7 someDesc) 8 0) = 7 /\
  r (SampleAt (ResetAt sampled100 9) 8 0) = 9 /\
  Value (SampleAt (ResetAt sampled100 9) 8 0) = (8, 0).
Proof.
  apply (first_sample_is_no_reset 7 8 9 0 someDesc sampled100).
  - unfold isUint64. vm_compute. split; [discriminate | reflexivity].
  - reflexivity.
Defined.

(** X6.  No sequence of [SampleAt] and [ResetAt] calls changes the
    description of a meter or the set function it was built with. *)
Theorem ops_keep_description (ops : list op) :
  forall m, md (runOps m ops) = md m /\ f (runOps m ops) = f m.
Proof.
  induction ops as [|o ops IH]; intros m; [split; reflexivity|].
  cbn [runOps fold_left]. fold (runOps (step m o) ops).
  destruct (IH (step m o)) as [Hmd Hf]. rewrite Hmd, Hf.
  destruct o as [t0 v0 | t0]; cbn [step].
  - destruct (SampleAt_keeps_f m t0 v0) as [H1 H2]. split; assumption.
  - split; reflexivity.
Qed.

(** X7.  [DescribeMeter] with any number of [Cumulative()] options keeps
    the name and the explanation, is cumulative exactly when there is at
    least one option, and records at most one frame of the call stack. *)
Theorem DescribeMeter_Cumulative (callers : list Z) (nm ex : String.string)
    (n : nat) :
  let d := DescribeMeter callers nm ex (repeat Cumulative n) in
  name d = nm /\ explanation d = ex /\
  cumulative d = (0 <? n)%nat /\
  describedAt d = firstn 1 callers /\
  (length (describedAt d) <= 1)%nat.
Proof.
  cbv zeta. unfold DescribeMeter.
  assert (H : forall k d0,
             let d := fold_left (fun md opt => apply opt md) (repeat Cumulative k) d0 in
             name d = name d0 /\ explanation d = explanation d0 /\
             cumulative d = ((0 <? k)%nat || cumulative d0)%bool /\
             describedAt d = describedAt d0).
  { induction k as [|k IH]; intros d0; cbv zeta.
    - cbn. repeat split; reflexivity.
    - cbn [repeat fold_left]. destruct (IH (apply Cumulative d0)) as (H1 & H2 & H3 & H4).
      rewrite H1, H2, H3, H4. cbn. rewrite orb_true_r. repeat split; reflexivity. }
  destruct (H n {| name := nm; explanation := ex; cumulative := false;
                   describedAt := firstn 1 callers |}) as (H1 & H2 & H3 & H4).
  cbn [name explanation cumulative describedAt] in *.
  rewrite H1, H2, H3, H4, orb_false_r.
  repeat split; try reflexivity.
  rewrite length_firstn. lia.
Qed.

(** X8.  The descriptions of [xfs.go], whatever the call stack: all seven
    are cumulative, no two have the same name, and every name begins
    with [/xfs/]. *)
Theorem xfs_descriptions (callers : list Z) :
  length (xfs.descriptions callers) = 7%nat /\
  Forall (fun d => cumulative d = true) (xfs.descriptions callers) /\
  NoDup (map name (xfs.descriptions callers)) /\
  Forall (fun d => String.prefix xfs.xfsPrefix (name d) = true)
         (xfs.descriptions callers).
Proof.
  split; [reflexivity|]. split; [|split].
  - repeat constructor.
  - cbn. repeat constructor; cbn; intuition discriminate.
  - repeat constructor.
Qed.

Lemma counter_no_reset_witness :
  SampleAt sampled100 2 100
  = {| md := md sampled100; v := 100; t := 2; r := r sampled100;
       f := f sampled100 |}.
Proof.
  apply (meter_facts.counter_no_reset sampled100 2 100).
  - reflexivity.
  - vm_compute. discriminate.
Defined.

End meter_more.

(** ** More properties of [naiveAtoi], and the parsers of the benchmarks *)

Module atoi_more.

Import scanner reference atoi_spec bench examples.
Local Open Scope Z_scope.

Lemma M_pos : 0 < M.
Proof. reflexivity. Qed.

Lemma uint64_mod (z : Z) : uint64 z = z mod M.
Proof. reflexivity. Qed.

Lemma digit_range (c : byte) : 0 <= digit c < 256.
Proof. unfold digit. apply Z.mod_pos_bound. reflexivity. Qed.

Lemma pow10_S (n : nat) : 10 ^ Z.of_nat (S n) = 10 * 10 ^ Z.of_nat n.
Proof. rewrite Nat2Z.inj_succ, Z.pow_succ_r by lia. reflexivity. Qed.

Lemma value_app (a b : bytes) :
  value (a ++ b) = value a * 10 ^ Z.of_nat (length b) + value b.
Proof.
  induction a as [|c a IH]; [simpl; lia|].
  cbn [app value]. rewrite IH, length_app, Nat2Z.inj_add, Z.pow_add_r by lia.
  ring.
Qed.

(** The loop of [naiveAtoi], from an accumulator in range. *)
Lemma naive_fold (b : bytes) :
  forall n, 0 <= n < M ->
  fold_left (fun rv c => uint64 (uint64 (rv * 10) + digit c)) b n
  = (n * 10 ^ Z.of_nat (length b) + value b) mod M.
Proof.
  induction b as [|c b IH]; intros n Hn.
  - cbn. rewrite Z.mul_1_r, Z.add_0_r. symmetry. apply Z.mod_small. exact Hn.
  - cbn [fold_left]. rewrite IH by (apply Z.mod_pos_bound; exact M_pos).
    rewrite !uint64_mod. cbn [value length]. rewrite pow10_S.
    rewrite Zplus_mod_idemp_l.
    rewrite <- Zplus_mod_idemp_l, Zmult_mod_idemp_l, Zplus_mod_idemp_l.
    f_equal. ring.
Qed.

Lemma naiveAtoi_value (b : bytes) : naiveAtoi b = value b mod M.
Proof.
  unfold naiveAtoi. rewrite naive_fold by (split; [lia | exact M_pos]).
  f_equal.
Qed.

Lemma value_decimalFrom (b : bytes) :
  forall n, Forall IsDigit b ->
  decimalFrom n b = n * 10 ^ Z.of_nat (length b) + value b.
Proof.
  induction b as [|c b IH]; intros n Hd.
  - cbn. lia.
  - inversion Hd as [|? ? Hc Hb]; subst.
    unfold decimalFrom in *. cbn [fold_left value length].
    rewrite IH by exact Hb. rewrite pow10_S.
    destruct (atoi_facts.digit_of_IsDigit c Hc) as [Hdig _]. rewrite Hdig.
    ring.
Qed.

(** X9.  [naiveAtoi] never fails: its result is a [uint64] on every span,
    and on a string of digits of any length it is the decimal value
    reduced modulo [2^64]. *)
Theorem naiveAtoi_wraps (b : bytes) :
  0 <= naiveAtoi b < 2 ^ 64 /\
  (Forall IsDigit b -> naiveAtoi b = decimal b mod 2 ^ 64).
Proof.
  rewrite naiveAtoi_value. split.
  - apply Z.mod_pos_bound. exact M_pos.
  - intros Hd. unfold decimal. rewrite (value_decimalFrom b 0 Hd).
    f_equal.
Qed.

(** X10.  [naiveAtoi] of two spans put together, from the results for each. *)
Theorem naiveAtoi_app (a b : bytes) :
  naiveAtoi (a ++ b)
  = (naiveAtoi a * 10 ^ Z.of_nat (length b) + naiveAtoi b) mod 2 ^ 64.
Proof.
  rewrite !naiveAtoi_value, value_app. fold M.
  rewrite <- Zplus_mod_idemp_r.
  rewrite <- (Zplus_mod_idemp_l (value a * _)).
  rewrite <- (Zmult_mod_idemp_l (value a)).
  rewrite Zplus_mod_idemp_l, Zplus_mod_idemp_r. reflexivity.
Qed.

Lemma value_zeros (n : nat) : value (repeat x30 n) = 0.
Proof.
  induction n as [|n IH]; [reflexivity|].
  cbn [repeat value]. rewrite IH. reflexivity.
Qed.

(** X11.  Zeros in front of a span do not change the result. *)
Theorem naiveAtoi_leading_zeros (n : nat) (b : bytes) :
  naiveAtoi (repeat x30 n ++ b) = naiveAtoi b.
Proof.
  rewrite !naiveAtoi_value, value_app, value_zeros. f_equal.
Qed.

(** *** The table of powers *)

Lemma powAt_spec (k : nat) :
  (k < 20)%nat -> powAt (19 - Z.of_nat k) = Some (10 ^ Z.of_nat k).
Proof.
  intros Hk.
  do 20 (destruct k as [|k]; [reflexivity|]). lia.
Qed.

Lemma powAt_negative (o : Z) : o < 0 -> powAt o = None.
Proof.
  intros Ho. unfold powAt.
  assert (H : (0 <=? o) = false) by (apply Z.leb_gt; exact Ho).
  rewrite H. reflexivity.
Qed.

Lemma powLoop_spec (b : bytes) :
  forall rv, (length b <= 20)%nat -> 0 <= rv < M ->
  powLoop b (20 - Z.of_nat (length b)) rv = Some ((rv + value b) mod M).
Proof.
  induction b as [|c b IH]; intros rv Hlen Hrv.
  - cbn. rewrite Z.add_0_r, Z.mod_small by exact Hrv. reflexivity.
  - cbn [length] in Hlen. cbn [powLoop].
    replace (20 - Z.of_nat (length (c :: b))) with (19 - Z.of_nat (length b))
      by (cbn [length]; lia).
    rewrite powAt_spec by lia.
    replace (19 - Z.of_nat (length b) + 1) with (20 - Z.of_nat (length b)) by lia.
    rewrite IH; [|lia | apply Z.mod_pos_bound; exact M_pos].
    f_equal. rewrite !uint64_mod. cbn [value].
    rewrite Zplus_mod_idemp_r, Zplus_mod_idemp_l.
    f_equal. ring.
Qed.

Lemma powLoop_negative (b : bytes) (o rv : Z) :
  b <> [] -> o < 0 -> powLoop b o rv = None.
Proof.
  intros Hb Ho. destruct b as [|c b]; [congruence|].
  cbn [powLoop]. rewrite powAt_negative by exact Ho. reflexivity.
Qed.

(** X12.  [powTableAtoi] returns what [naiveAtoi] returns on every span of
    at most twenty bytes, and panics on every longer one, where its
    first index into the table is negative. *)
Theorem powTableAtoi_naiveAtoi (b : bytes) :
  ((length b <= 20)%nat -> powTableAtoi b = Some (naiveAtoi b)) /\
  ((20 < length b)%nat -> powTableAtoi b = None).
Proof.
  unfold powTableAtoi. change (Z.of_nat (length pow)) with 20. split.
  - intros Hlen.
    rewrite powLoop_spec; [|exact Hlen | split; [lia | exact M_pos]].
    rewrite naiveAtoi_value. reflexivity.
  - intros Hlen. apply powLoop_negative; [|lia].
    destruct b; [simpl in Hlen; lia | discriminate].
Qed.

Lemma powSlice4_spec (k : nat) :
  (k + 4 <= 20)%nat ->
  powSlice4 (20 - Z.of_nat (k + 4))
  = Some (10 ^ Z.of_nat (k + 3), 10 ^ Z.of_nat (k + 2),
          10 ^ Z.of_nat (k + 1), 10 ^ Z.of_nat k).
Proof.
  intros Hk.
  do 17 (destruct k as [|k]; [reflexivity|]). lia.
Qed.

Lemma unrolledLoop_spec (n : nat) :
  forall b rv, (length b <= n)%nat -> (length b <= 20)%nat -> 0 <= rv < M ->
  unrolledLoop b (20 - Z.of_nat (length b)) rv = Some ((rv + value b) mod M).
Proof.
  induction n as [|n IH]; intros b rv Hn Hlen Hrv.
  - destruct b; [|simpl in Hn; lia].
    cbn. rewrite Z.add_0_r, Z.mod_small by exact Hrv. reflexivity.
  - destruct b as [|c0 [|c1 [|c2 [|c3 b']]]];
      try (apply powLoop_spec; assumption).
    cbn [unrolledLoop].
    replace (length (c0 :: c1 :: c2 :: c3 :: b')) with (length b' + 4)%nat in *
      by (cbn [length]; lia).
    rewrite powSlice4_spec by lia.
    replace (20 - Z.of_nat (length b' + 4) + 4) with (20 - Z.of_nat (length b'))
      by lia.
    rewrite IH; [|lia | lia | apply Z.mod_pos_bound; exact M_pos].
    f_equal. rewrite !uint64_mod. cbn [value length].
    replace (S (S (S (length b')))) with (length b' + 3)%nat by lia.
    replace (S (S (length b'))) with (length b' + 2)%nat by lia.
    replace (S (length b')) with (length b' + 1)%nat by lia.
    rewrite Zplus_mod_idemp_l.
    set (x0 := 10 ^ Z.of_nat (length b' + 3) * digit c0).
    set (x1 := 10 ^ Z.of_nat (length b' + 2) * digit c1).
    set (x2 := 10 ^ Z.of_nat (length b' + 1) * digit c2).
    set (x3 := 10 ^ Z.of_nat (length b') * digit c3).
    replace (digit c0 * 10 ^ Z.of_nat (length b' + 3)) with x0 by (unfold x0; ring).
    replace (digit c1 * 10 ^ Z.of_nat (length b' + 2)) with x1 by (unfold x1; ring).
    replace (digit c2 * 10 ^ Z.of_nat (length b' + 1)) with x2 by (unfold x2; ring).
    replace (digit c3 * 10 ^ Z.of_nat (length b')) with x3 by (unfold x3; ring).
    clearbody x0 x1 x2 x3. generalize (value b') as y. intros y.
    clear. unfold M. Z.to_euclidean_division_equations. lia.
Qed.

Lemma powSlice4_negative (o : Z) : o < 0 -> powSlice4 o = None.
Proof.
  intros Ho. unfold powSlice4.
  assert (H : (0 <=? o) = false) by (apply Z.leb_gt; exact Ho).
  rewrite H. reflexivity.
Qed.

(** X13.  [powTableUnrolled4] too returns what [naiveAtoi] returns on every
    span of at most twenty bytes, and panics on every longer one, where
    its first slice of the table begins at a negative index. *)
Theorem powTableUnrolled4_naiveAtoi (b : bytes) :
  ((length b <= 20)%nat -> powTableUnrolled4 b = Some (naiveAtoi b)) /\
  ((20 < length b)%nat -> powTableUnrolled4 b = None).
Proof.
  unfold powTableUnrolled4. change (Z.of_nat (length pow)) with 20. split.
  - intros Hlen.
    rewrite (unrolledLoop_spec (length b));
      [|apply le_n | exact Hlen | split; [lia | exact M_pos]].
    rewrite naiveAtoi_value. reflexivity.
  - intros Hlen.
    destruct b as [|c0 [|c1 [|c2 [|c3 b']]]]; try (simpl in Hlen; lia).
    cbn [unrolledLoop]. rewrite powSlice4_negative; [reflexivity|].
    cbn [length] in *. lia.
Qed.

(** The value of the benchmarks, by the three parsers; and a number one
    too large for a [uint64], which [naiveAtoi] takes for zero. *)
Example parsers_val :
  naiveAtoi val = 8475589 /\ powTableAtoi val = Some 8475589 /\
  powTableUnrolled4 val = Some 8475589.
Proof. repeat split; vm_compute; reflexivity. Qed.

Example naiveAtoi_overflow : naiveAtoi twoTo64 = 0.
Proof. vm_compute. reflexivity. Qed.

End atoi_more.

(** ** More properties of the field splitter *)

Module fields_more.

Import gobytes scanner reference invariants fields_spec examples fields_facts.

Lemma fields_Runs (s : bytes) : Runs s (asciiByteFields s []).
Proof.
  destruct (asciiByteFields_spec s []) as (fs & Hfs & HR).
  simpl in Hfs. rewrite Hfs. exact HR.
Qed.

Lemma Runs_fields (s : bytes) (fs : list bytes) :
  Runs s fs -> asciiByteFields s [] = fs.
Proof.
  intros HR. apply (Runs_unique s _ (fields_Runs s)). exact HR.
Qed.

Lemma Runs_good (s : bytes) (fs : list bytes) :
  Runs s fs -> Forall (fun fld => fld <> [] /\ Forall NonSpace fld) fs.
Proof. induction 1; constructor; auto. Qed.

Lemma filter_spaces (ws : bytes) :
  Forall IsSpace ws -> filter notSpace ws = [].
Proof.
  induction 1 as [|c ws Hc _ IH]; [reflexivity|].
  cbn [filter]. unfold notSpace at 1.
  apply asciiSpace_IsSpace in Hc. rewrite Hc. exact IH.
Qed.

Lemma filter_field (fld : bytes) :
  Forall NonSpace fld -> filter notSpace fld = fld.
Proof.
  induction 1 as [|c fld Hc _ IH]; [reflexivity|].
  cbn [filter]. unfold notSpace at 1.
  apply asciiSpace_NonSpace in Hc. rewrite Hc, IH. reflexivity.
Qed.

(** X14.  The fields, one after the other, are the bytes of the span that
    are not white space, in their order: white space is all that the
    splitter drops. *)
Theorem fields_concat (s : bytes) :
  concat (asciiByteFields s []) = filter notSpace s.
Proof.
  pose proof (fields_Runs s) as HR.
  induction HR as [ws Hws | ws fld rest fs Hws Hne Hfld Hst HR IH].
  - rewrite filter_spaces by exact Hws. reflexivity.
  - cbn [concat]. rewrite !filter_app, filter_spaces, filter_field by assumption.
    cbn [app]. f_equal. exact IH.
Qed.

Lemma Runs_join (fs : list bytes) :
  Forall (fun fld => fld <> [] /\ Forall NonSpace fld) fs ->
  Runs (joinFields fs) fs.
Proof.
  induction 1 as [|fld fs [Hne Hfld] Hall IH].
  - constructor. constructor.
  - cbn [joinFields]. destruct fs as [|g fs'].
    + pose proof (Runs_more [] fld [] [] (Forall_nil _) Hne Hfld I
                    (Runs_none [] (Forall_nil _))) as H.
      simpl in H. rewrite app_nil_r in H. exact H.
    + apply (Runs_more [] fld (x20 :: joinFields (g :: fs')) (g :: fs')
               (Forall_nil _) Hne Hfld).
      * cbn. unfold IsSpace. auto 7.
      * apply (Runs_spaces [x20]); [|exact IH].
        constructor; [unfold IsSpace; auto 7 | constructor].
Qed.

(** X15.  Splitting is undone by joining with single spaces and done again
    by splitting: the fields of a span, joined, split into the same
    fields; and any fields that are not empty and hold no white space
    come back from their joining. *)
Theorem fields_join_roundtrip (s : bytes) :
  asciiByteFields (joinFields (asciiByteFields s [])) [] = asciiByteFields s [] /\
  (forall fs, Forall (fun fld => fld <> [] /\ Forall NonSpace fld) fs ->
              asciiByteFields (joinFields fs) [] = fs).
Proof.
  assert (H : forall fs, Forall (fun fld => fld <> [] /\ Forall NonSpace fld) fs ->
                         asciiByteFields (joinFields fs) [] = fs).
  { intros fs Hfs. apply Runs_fields. apply Runs_join. exact Hfs. }
  split; [|exact H].
  apply H. apply (Runs_good s). apply fields_Runs.
Qed.

Lemma startsWith_space_app (rest : bytes) (c : byte) (s2 : bytes) :
  startsWith IsSpace rest -> IsSpace c -> startsWith IsSpace (rest ++ c :: s2).
Proof. destruct rest; simpl; auto. Qed.

Lemma Runs_app_space (s1 : bytes) (fs1 : list bytes) :
  Runs s1 fs1 ->
  forall c s2 fs2, IsSpace c -> Runs s2 fs2 ->
  Runs (s1 ++ c :: s2) (fs1 ++ fs2).
Proof.
  induction 1 as [ws Hws | ws fld rest fs Hws Hne Hfld Hst HR IH];
    intros c s2 fs2 Hc H2.
  - cbn [app]. replace (ws ++ c :: s2) with ((ws ++ [c]) ++ s2)
      by (rewrite <- app_assoc; reflexivity).
    apply Runs_spaces; [|exact H2].
    apply Forall_app. split; [exact Hws | constructor; [exact Hc | constructor]].
  - replace ((ws ++ fld ++ rest) ++ c :: s2) with (ws ++ fld ++ (rest ++ c :: s2))
      by (rewrite <- !app_assoc; reflexivity).
    cbn [app]. constructor; auto.
    apply startsWith_space_app; assumption.
Qed.

(** X16.  The fields of two spans with a white space byte between them are
    the fields of the first followed by the fields of the second. *)
Theorem fields_app_space (s1 s2 : bytes) (c : byte) :
  IsSpace c ->
  asciiByteFields (s1 ++ c :: s2) []
  = asciiByteFields s1 [] ++ asciiByteFields s2 [].
Proof.
  intros Hc. apply Runs_fields.
  apply Runs_app_space; [apply fields_Runs | exact Hc | apply fields_Runs].
Qed.

Lemma fields_app_space_witness :
  asciiByteFields (lineA ++ x09 :: lineB) []
  = asciiByteFields lineA [] ++ asciiByteFields lineB [].
Proof.
  apply (fields_app_space lineA lineB x09).
  unfold IsSpace. left. reflexivity.
Defined.

Lemma Runs_cons_inv (s0 fld : bytes) (fs : list bytes) :
  Runs s0 (fld :: fs) ->
  exists ws rest, s0 = ws ++ fld ++ rest /\ fld <> [] /\ Forall NonSpace fld.
Proof.
  intros H. inversion H as [| ws fld' rest fs' Hws Hne Hfld Hst HR Heq]; subst.
  exists ws, rest. auto.
Qed.

(** X17.  A span yields no field exactly when all its bytes are white space
    (the empty span among them), and yields itself as its only field
    exactly when it is not empty and none of its bytes is. *)
Theorem fields_none_or_whole (s : bytes) :
  (asciiByteFields s [] = [] <-> Forall IsSpace s) /\
  (asciiByteFields s [] = [s] <-> s <> [] /\ Forall NonSpace s).
Proof.
  pose proof (fields_Runs s) as HR. split; split.
  - intros H. rewrite H in HR. inversion HR. assumption.
  - intros H. apply Runs_fields. constructor. exact H.
  - intros H. rewrite H in HR.
    destruct (Runs_cons_inv s s [] HR) as (ws & rest & Heq & Hne & Hfld).
    auto.
  - intros [Hne Hs]. apply Runs_fields.
    pose proof (Runs_more [] s [] [] (Forall_nil _) Hne Hs I
                  (Runs_none [] (Forall_nil _))) as H.
    simpl in H. rewrite app_nil_r in H. exact H.
Qed.

Lemma Runs_nil_inv (fs : list bytes) : Runs [] fs -> fs = [].
Proof.
  intros H. inversion H as [| ws fld rest fs' Hws Hne Hfld Hst HR Heq]; [reflexivity|].
  exfalso. destruct ws; [|discriminate Heq].
  destruct fld; [congruence | discriminate Heq].
Qed.

Lemma Runs_count (s : bytes) (fs : list bytes) :
  Runs s fs ->
  2 * length fs <= length s + 1 /\
  (s <> [] -> startsWith IsSpace s -> 2 * length fs <= length s).
Proof.
  induction 1 as [ws Hws | ws fld rest fs Hws Hne Hfld Hst HR IH].
  - simpl. split; lia.
  - assert (Hrest : 2 * length fs <= length rest).
    { destruct rest as [|c rest'].
      - rewrite (Runs_nil_inv fs HR). simpl. lia.
      - apply IH; [discriminate | exact Hst]. }
    assert (Hf : 1 <= length fld) by (destruct fld; [congruence | simpl; lia]).
    rewrite !length_app. cbn [length]. split; [lia|].
    intros _ Hsp. destruct ws as [|w ws']; [|simpl; lia].
    exfalso. destruct fld as [|c fld']; [congruence|].
    simpl in Hsp. inversion Hfld; subst. contradiction.
Qed.

Lemma Runs_within (s : bytes) (fs : list bytes) :
  Runs s fs ->
  Forall (fun fld => exists pre post, s = pre ++ fld ++ post) fs.
Proof.
  induction 1 as [ws Hws | ws fld rest fs Hws Hne Hfld Hst HR IH];
    constructor.
  - exists ws, rest. reflexivity.
  - eapply Forall_impl; [|exact IH].
    intros g (pre & post & Hg). exists (ws ++ fld ++ pre), post.
    rewrite Hg, <- !app_assoc. reflexivity.
Qed.

(** X18.  A span of [n] bytes has at most [(n + 1) / 2] fields, and every
    field is a stretch of the span. *)
Theorem fields_count_within (s : bytes) :
  2 * length (asciiByteFields s []) <= length s + 1 /\
  Forall (fun fld => exists pre post, s = pre ++ fld ++ post)
         (asciiByteFields s []).
Proof.
  pose proof (fields_Runs s) as HR. split.
  - apply (Runs_count s _ HR).
  - apply Runs_within. exact HR.
Qed.

End fields_more.

(** ** More properties of [Scan] *)

Module scan_more.

Import gobytes scanner reference invariants scan_spec examples.
Import bufio_facts scan_facts.

(** *** [Scan] and the searches of a line reader *)

Lemma forScan_search (C : nat) (k : nat) (f : lineFunc) (fuel : nat) :
  forall st a,
  Rep C (sc st) a ->
  let st' := forScan fuel k f st in
  let res := search fuel C (name f) k a (nlines st) in
  calls st' = calls st ++ fst (fst res) /\
  Rep C (sc st') (snd (fst res)) /\
  nlines st' = snd res.
Proof.
  induction fuel as [|fuel IH]; intros st a HR; cbv zeta.
  - cbn [forScan search fst snd]. rewrite app_nil_r. auto.
  - rewrite forScan_S. cbn [search].
    destruct (Scan_refines C (sc st) a HR) as [_ [HR' Hag]].
    destruct (nextLine C a) as [[tk|] a'] eqn:E; cbn [fst snd] in HR', Hag.
    + destruct Hag as [Hok Htk]. rewrite Hok.
      apply Bytes_token in Htk. rewrite Htk.
      destruct (matches (name f) tk).
      * cbn [calls sc nlines fst snd]. unfold callOn, callFor. rewrite Htk. auto.
      * specialize (IH (nextState st (snd (bufio.Scan (sc st)))) a' HR').
        cbv zeta in IH. cbn [nextState nlines calls] in IH. exact IH.
    + rewrite Hag. cbn [calls sc nlines fst snd]. rewrite app_nil_r. auto.
Qed.

Lemma rangeLineFuncs_scanFrom (C : nat) (fs : list lineFunc) :
  forall k st a,
  Rep C (sc st) a ->
  calls (rangeLineFuncs k fs st) = calls st ++ scanFrom C k fs a (nlines st).
Proof.
  induction fs as [|f fs IH]; intros k st a HR.
  - cbn. symmetry. apply app_nil_r.
  - cbn [rangeLineFuncs scanFrom].
    pose proof (linesLeft_pending C (sc st) a HR) as Hl.
    rewrite (forScan_enough C k f (pending (sc st) + 1) (linesLeft a + 1) st a HR)
      by (unfold pending; lia).
    pose proof (forScan_search C k f (linesLeft a + 1) st a HR) as H.
    cbv zeta in H.
    destruct (search (linesLeft a + 1) C (name f) k a (nlines st))
      as [[cs a'] n'] eqn:E.
    cbn [fst snd] in H. destruct H as (Hc & HR' & Hn).
    rewrite (IH (S k) _ a' HR'), Hc, Hn, app_assoc. reflexivity.
Qed.

(** The calls of a scan are those of the searches of a line reader
    with the capacity of the line buffer, started on the input. *)
Lemma Scan_calls (bs0 : BufferScanner) (b : bytes) :
  snd (Scan bs0 b)
  = scanFrom (length (lineBuf bs0)) 0 (lineFuncs bs0) (Open b) 0.
Proof.
  unfold Scan, ScanState. cbn [snd].
  rewrite (rangeLineFuncs_scanFrom (length (lineBuf bs0)) _ _ _ (Open b)).
  - reflexivity.
  - apply Rep_init.
Qed.

(** X20.  A [BufferScanner] can be used again: what a scan calls depends on
    the capacity of the line buffer, the [lineFunc]s and the input, not
    on what the line buffer holds, where the reader stands or what the
    field scratch holds.  So a second scan, after any first, calls what
    a scan with a new scanner would call. *)
Theorem Scan_again (bs0 : BufferScanner) (b1 b2 : bytes) :
  snd (Scan (fst (Scan bs0 b1)) b2) = snd (Scan bs0 b2) /\
  (forall bs1,
     length (lineBuf bs1) = length (lineBuf bs0) ->
     lineFuncs bs1 = lineFuncs bs0 ->
     snd (Scan bs1 b2) = snd (Scan bs0 b2)).
Proof.
  assert (H : forall bs1,
             length (lineBuf bs1) = length (lineBuf bs0) ->
             lineFuncs bs1 = lineFuncs bs0 ->
             snd (Scan bs1 b2) = snd (Scan bs0 b2)).
  { intros bs1 Hl Hf. rewrite !Scan_calls, Hl, Hf. reflexivity. }
  split; [|exact H].
  destruct (Scan_keeps_capacity bs0 b1) as [Hl Hf].
  apply H; assumption.
Qed.

(** *** Edge cases: no input, no buffer *)

Lemma search_Stopped (C : nat) (fuel : nat) (nm : bytes) (k n : nat) :
  search fuel C nm k Stopped n = ([], Stopped, n).
Proof. destruct fuel; reflexivity. Qed.

Lemma scanFrom_Stopped (C : nat) (fs : list lineFunc) :
  forall k n, scanFrom C k fs Stopped n = [].
Proof.
  induction fs as [|f fs IH]; intros k n; [reflexivity|].
  cbn [scanFrom]. rewrite search_Stopped. cbn [app]. apply IH.
Qed.

Lemma scanFrom_no_line (C : nat) (fs : list lineFunc) (a : reader) (k n : nat) :
  nextLine C a = (None, Stopped) -> scanFrom C k fs a n = [].
Proof.
  intros E. destruct fs as [|f fs]; [reflexivity|].
  cbn [scanFrom]. replace (linesLeft a + 1) with (S (linesLeft a)) by lia.
  cbn [search]. rewrite E. cbn [app]. apply scanFrom_Stopped.
Qed.

(** X21.  A scan of an empty input calls nothing, and so does every scan
    with a line buffer of capacity zero, whatever the input. *)
Theorem Scan_nothing (bs0 : BufferScanner) (b : bytes) :
  snd (Scan bs0 []) = [] /\
  (lineBuf bs0 = [] -> snd (Scan bs0 b) = []).
Proof.
  split.
  - rewrite Scan_calls. apply scanFrom_no_line.
    cbn [nextLine]. destruct (length (lineBuf bs0) =? 0); reflexivity.
  - intros Hb. rewrite Scan_calls, Hb. apply scanFrom_no_line. reflexivity.
Qed.

(** *** The first line does not fit *)

(** X22.  When the first line does not fit the line buffer, the first
    [lineFunc] is given up and never called; the second is offered the
    first [C] bytes of the line as if they were a line, and nothing is
    read after that.  So the scan makes no call, or one call, for the
    second [lineFunc] on that head of the line. *)
Theorem first_line_too_long (bs0 : BufferScanner) (b : bytes) :
  0 < length (lineBuf bs0) ->
  length (lineBuf bs0) <= length b ->
  IndexByte (firstn (length (lineBuf bs0)) b) x0a = None ->
  lineFuncs bs0 <> [] ->
  snd (Scan bs0 b) = [] \/
  snd (Scan bs0 b)
  = [callFor 1 0 (bufio.dropCR (firstn (length (lineBuf bs0)) b))].
Proof.
  intros HC Hlen Hnl Hfs. rewrite Scan_calls.
  destruct (lineFuncs bs0) as [|f fs]; [congruence|].
  set (C := length (lineBuf bs0)) in *.
  assert (E : nextLine C (Open b) = (None, Failed b)).
  { cbn [nextLine].
    assert (HC0 : (C =? 0) = false) by (apply Nat.eqb_neq; lia).
    rewrite HC0. destruct b as [|c b']; [simpl in Hlen; lia|].
    rewrite Hnl.
    assert (Hlt : (length (c :: b') <? C) = false) by (apply Nat.ltb_ge; exact Hlen).
    rewrite Hlt. reflexivity. }
  cbn [scanFrom].
  replace (linesLeft (Open b) + 1) with (S (linesLeft (Open b))) by lia.
  cbn [search]. rewrite E. cbn [app].
  destruct fs as [|g fs]; [left; reflexivity|].
  cbn [scanFrom linesLeft Nat.add search nextLine].
  destruct (matches (name g) (bufio.dropCR (firstn C b))).
  - right. cbn [app]. rewrite scanFrom_Stopped. reflexivity.
  - left. cbn [nextLine app]. rewrite scanFrom_Stopped. reflexivity.
Qed.

Lemma first_line_too_long_witness :
  snd (Scan (bsAB 8) longInput) = [] \/
  snd (Scan (bsAB 8) longInput)
  = [callFor 1 0 (bufio.dropCR (firstn (length (lineBuf (bsAB 8))) longInput))].
Proof.
  apply (first_line_too_long (bsAB 8) longInput).
  - vm_compute. lia.
  - vm_compute. lia.
  - vm_compute. reflexivity.
  - discriminate.
Defined.

(** *** Inputs shorter than the line buffer *)

Lemma splitLines_Some (R : bytes) :
  forall cur i, IndexByte R x0a = Some i ->
  splitLines cur R = (cur ++ firstn i R) :: splitLines [] (skipn (S i) R).
Proof.
  induction R as [|c R IH]; intros cur i Hi; [discriminate|].
  cbn [IndexByte] in Hi. cbn [splitLines].
  destruct (Byte.eqb c x0a).
  - injection Hi as <-. cbn. rewrite app_nil_r. reflexivity.
  - destruct (IndexByte R x0a) as [j|]; [|discriminate].
    injection Hi as <-. rewrite (IH (cur ++ [c]) j eq_refl).
    cbn [firstn skipn]. rewrite <- app_assoc. reflexivity.
Qed.

Lemma splitLines_None (R : bytes) :
  forall cur, IndexByte R x0a = None -> cur ++ R <> [] ->
  splitLines cur R = [cur ++ R].
Proof.
  induction R as [|c R IH]; intros cur Hi Hne.
  - rewrite app_nil_r in *. cbn. destruct cur; [congruence | reflexivity].
  - cbn [IndexByte] in Hi. cbn [splitLines].
    destruct (Byte.eqb c x0a); [discriminate|].
    destruct (IndexByte R x0a); [discriminate|].
    rewrite (IH (cur ++ [c]) eq_refl).
    + rewrite <- app_assoc. reflexivity.
    + destruct cur; discriminate.
Qed.

Lemma linesOf_Stopped (C : nat) : linesOf C Stopped = [].
Proof. reflexivity. Qed.

(** What a reader delivers from a rest shorter than its buffer. *)
Lemma linesOf_short (C : nat) (n : nat) :
  forall R, length R <= n -> length R < C ->
  linesOf C (Open R) = textLines R.
Proof.
  induction n as [|n IH]; intros R Hn HC.
  - destruct R; [|simpl in Hn; lia].
    rewrite linesOf_unfold. cbn [nextLine].
    destruct (C =? 0); reflexivity.
  - rewrite linesOf_unfold. cbn [nextLine].
    assert (HC0 : (C =? 0) = false) by (apply Nat.eqb_neq; lia).
    rewrite HC0. destruct R as [|c R']; [reflexivity|].
    rewrite firstn_all2 by lia.
    destruct (IndexByte (c :: R') x0a) as [i|] eqn:Hi; cbn [fst snd].
    + pose proof (IndexByte_Some _ _ _ Hi) as Hlt.
      unfold textLines. rewrite (splitLines_Some _ [] i Hi). cbn [app map].
      f_equal. apply IH; rewrite length_skipn; lia.
    + assert (Hlt : (length (c :: R') <? C) = true) by (apply Nat.ltb_lt; exact HC).
      rewrite Hlt. cbn [fst snd]. rewrite linesOf_Stopped.
      unfold textLines. rewrite (splitLines_None _ [] Hi) by discriminate.
      reflexivity.
Qed.

(** X23.  From an input shorter than the line buffer the scanner delivers
    the lines of the input: every stretch that ends in a newline and the
    stretch after the last newline if it is not empty, each without the
    carriage return it may end in. *)
Theorem delivered_textLines (C : nat) (b : bytes) :
  length b < C -> delivered C b = textLines b.
Proof.
  intros HC. unfold delivered. apply (linesOf_short C (length b)); [lia | exact HC].
Qed.

Lemma delivered_textLines_witness :
  delivered 16 withExtra = textLines withExtra.
Proof.
  apply (delivered_textLines 16 withExtra). vm_compute. lia.
Defined.

Lemma nextLine_calm (C : nat) (a : reader) :
  calm C a -> calm C (snd (nextLine C a)).
Proof.
  destruct a as [R | R |]; cbn [calm nextLine]; [|tauto|tauto].
  intros HC. destruct (C =? 0); [exact I|].
  destruct R as [|c R']; [exact I|].
  destruct (IndexByte (firstn C (c :: R')) x0a) as [i|]; cbn [snd calm].
  - rewrite length_skipn. lia.
  - apply Nat.ltb_lt in HC. rewrite HC. exact I.
Qed.

Lemma nextLine_calm_none (C : nat) (a : reader) :
  calm C a -> fst (nextLine C a) = None ->
  snd (nextLine C a) = Stopped /\ linesOf C a = [].
Proof.
  intros HC HN. pose proof (linesOf_unfold C a) as HU. rewrite HN in HU.
  pose proof (nextLine_calm C a HC) as HC'.
  destruct a as [R | R |]; cbn [calm] in HC; [| tauto | split; reflexivity].
  cbn [nextLine] in *. destruct (C =? 0); [split; [reflexivity | exact HU]|].
  destruct R as [|c R']; [split; [reflexivity | exact HU]|].
  destruct (IndexByte (firstn C (c :: R')) x0a); [discriminate HN|].
  apply Nat.ltb_lt in HC. rewrite HC in HN. discriminate HN.
Qed.

(** On a calm reader a search takes the first matching line of those
    to come. *)
Lemma search_findLine (C : nat) (nm : bytes) (k : nat) (fuel : nat) :
  forall a n,
  calm C a -> linesLeft a < fuel ->
  let res := search fuel C nm k a n in
  calm C (snd (fst res)) /\
  match findLine nm (linesOf C a) with
  | Some (j, l, rest) =>
      fst (fst res) = [callFor k (n + j) l] /\ snd res = n + S j /\
      linesOf C (snd (fst res)) = rest
  | None => fst (fst res) = [] /\ linesOf C (snd (fst res)) = []
  end.
Proof.
  induction fuel as [|fuel IH]; intros a n HC Hfuel; [lia|].
  cbv zeta. cbn [search].
  pose proof (nextLine_calm C a HC) as HC'.
  pose proof (linesOf_unfold C a) as HU.
  destruct (nextLine C a) as [[tk|] a'] eqn:E; cbn [fst snd] in *.
  - pose proof (nextLine_less C a tk) as Hless. rewrite E in Hless.
    specialize (Hless eq_refl). cbn [snd] in Hless.
    rewrite HU. cbn [findLine].
    destruct (matches nm tk).
    + cbn [fst snd]. split; [exact HC'|].
      rewrite Nat.add_0_r. repeat split; try reflexivity. lia.
    + specialize (IH a' (S n) HC' ltac:(lia)). cbv zeta in IH.
      destruct IH as [HC'' IH]. split; [exact HC''|].
      destruct (findLine nm (linesOf C a')) as [[[j l] rest]|].
      * destruct IH as (H1 & H2 & H3).
        rewrite H1, H2, H3.
        replace (S n + j) with (n + S j) by lia.
        replace (S n + S j) with (n + S (S j)) by lia.
        auto.
      * exact IH.
  - destruct (nextLine_calm_none C a HC) as [Ha' Hl]; [rewrite E; reflexivity|].
    rewrite E in Ha'. cbn [snd] in Ha'. subst a'.
    rewrite Hl. cbn [findLine fst snd]. auto.
Qed.

Lemma scanFrom_dispatch (C : nat) (fs : list lineFunc) :
  forall k a n, calm C a ->
  scanFrom C k fs a n = dispatch k fs n (linesOf C a).
Proof.
  induction fs as [|f fs IH]; intros k a n HC; [reflexivity|].
  cbn [scanFrom dispatch].
  pose proof (search_findLine C (name f) k (linesLeft a + 1) a n HC ltac:(lia)) as H.
  cbv zeta in H.
  destruct (search (linesLeft a + 1) C (name f) k a n) as [[cs a'] n'].
  cbn [fst snd] in H. destruct H as [HC' H].
  rewrite (IH (S k) a' n' HC').
  destruct (findLine (name f) (linesOf C a)) as [[[j l] rest]|].
  - destruct H as (H1 & H2 & H3). rewrite H1, H2, H3. reflexivity.
  - destruct H as (H1 & H2). rewrite H1, H2. cbn [app].
    destruct fs as [|g fs']; reflexivity.
Qed.

(** X24.  On an input shorter than the line buffer a scan does this: each
    [lineFunc] in turn is called on the first line, among the lines of
    the input after the line of the call before, that has two fields or
    more and the name as its first field; when there is no such line no
    later [lineFunc] is called either. *)
Theorem Scan_dispatch (bs0 : BufferScanner) (b : bytes) :
  length b < length (lineBuf bs0) ->
  snd (Scan bs0 b) = dispatch 0 (lineFuncs bs0) 0 (textLines b).
Proof.
  intros HC. rewrite Scan_calls.
  rewrite scanFrom_dispatch by exact HC.
  rewrite (linesOf_short _ (length b)) by (try exact HC; lia).
  reflexivity.
Qed.

Lemma Scan_dispatch_witness :
  snd (Scan (bsAB 16) withExtra)
  = dispatch 0 (lineFuncs (bsAB 16)) 0 (textLines withExtra).
Proof.
  apply (Scan_dispatch (bsAB 16) withExtra). vm_compute. lia.
Defined.

(** *** How many calls, and with what *)

Lemma Scan_orderly (bs0 : BufferScanner) (b : bytes) :
  exists n,
    orderly (lineFuncs bs0) (length (lineFuncs bs0)) n (snd (Scan bs0 b)).
Proof.
  unfold Scan, ScanState. cbn [snd].
  pose proof (rangeLineFuncs_orderly (lineFuncs bs0) [] (startScan bs0 b)) as Ho.
  cbn [app length] in Ho. cbv zeta in Ho.
  specialize (Ho ltac:(split; constructor)).
  eexists. exact Ho.
Qed.

Lemma Scan_tracked (bs0 : BufferScanner) (b : bytes) :
  Forall (fun c => nth_error (delivered (length (lineBuf bs0)) b) (lineNo c)
                   = Some (line c))
         (snd (Scan bs0 b)).
Proof.
  unfold Scan, ScanState. cbn [snd].
  pose proof (rangeLineFuncs_tracks (length (lineBuf bs0)) b (lineFuncs bs0) 0
                (startScan bs0 b) (startScan_tracks bs0 b))
    as (a & seen & _ & _ & Hd & Hc).
  eapply Forall_impl; [|exact Hc].
  intros c H. cbv beta in H. rewrite Hd, nth_error_app1; [exact H|].
  apply nth_error_Some. rewrite H. discriminate.
Qed.

(** Calls in order, seen through a number that grows with the order. *)
Lemma sorted_bound (g : Call -> nat) (cs : list Call) :
  (forall c1 c2, before c1 c2 -> g c1 < g c2) ->
  StronglySorted before cs ->
  forall lo n, Forall (fun c => lo <= g c < n) cs -> length cs <= n - lo.
Proof.
  intros Hg. induction 1 as [|c cs Hs IH Hall]; intros lo n Hb; [simpl; lia|].
  inversion Hb as [|? ? Hc Hcs]; subst.
  assert (H : Forall (fun c' => S (g c) <= g c' < n) cs).
  { rewrite Forall_forall in *. intros c' Hin.
    specialize (Hall c' Hin). apply Hg in Hall. specialize (Hcs c' Hin). lia. }
  specialize (IH (S (g c)) n H). simpl. lia.
Qed.

Lemma sorted_NoDup (g : Call -> nat) (cs : list Call) :
  (forall c1 c2, before c1 c2 -> g c1 < g c2) ->
  StronglySorted before cs -> NoDup (map g cs).
Proof.
  intros Hg. induction 1 as [|c cs Hs IH Hall]; [constructor|].
  cbn [map]. constructor; [|exact IH].
  intros Hin. apply in_map_iff in Hin. destruct Hin as (c' & Heq & Hin).
  rewrite Forall_forall in Hall. specialize (Hall c' Hin). apply Hg in Hall. lia.
Qed.

(** X25.  In one scan a [lineFunc] is called at most once and a line is the
    line of at most one call: there are no more calls than
    [lineFunc]s, and no more than lines delivered. *)
Theorem Scan_at_most_once (bs0 : BufferScanner) (b : bytes) :
  NoDup (map reg (snd (Scan bs0 b))) /\
  NoDup (map lineNo (snd (Scan bs0 b))) /\
  length (snd (Scan bs0 b)) <= length (lineFuncs bs0) /\
  length (snd (Scan bs0 b)) <= length (delivered (length (lineBuf bs0)) b).
Proof.
  destruct (Scan_orderly bs0 b) as (n & Hs & Hall).
  pose proof (Scan_tracked bs0 b) as Ht.
  assert (Hreg : forall c1 c2, before c1 c2 -> reg c1 < reg c2)
    by (intros c1 c2 [H _]; exact H).
  assert (Hln : forall c1 c2, before c1 c2 -> lineNo c1 < lineNo c2)
    by (intros c1 c2 [_ H]; exact H).
  split; [apply sorted_NoDup; assumption|].
  split; [apply sorted_NoDup; assumption|]. split.
  - rewrite <- (Nat.sub_0_r (length (lineFuncs bs0))).
    apply (sorted_bound reg); [exact Hreg | exact Hs|].
    eapply Forall_impl; [|exact Hall]. intros c (H & _). lia.
  - rewrite <- (Nat.sub_0_r (length (delivered _ b))).
    apply (sorted_bound lineNo); [exact Hln | exact Hs|].
    eapply Forall_impl; [|exact Ht]. intros c H. cbv beta in H.
    split; [lia|]. apply nth_error_Some. rewrite H. discriminate.
Qed.

Lemma Forall_skipn_bytes (P : bytes -> Prop) (n : nat) (l : list bytes) :
  Forall P l -> Forall P (skipn n l).
Proof.
  intros H. rewrite <- (firstn_skipn n l) in H.
  apply Forall_app in H. exact (proj2 H).
Qed.

(** X26.  A callback is always passed at least one field, so it may read
    [fields[0]]; and no field passed is empty or holds white space. *)
Theorem callback_fields (bs0 : BufferScanner) (b : bytes) :
  Forall (fun c => args c <> [] /\
                   Forall (fun fld => fld <> [] /\ Forall NonSpace fld) (args c))
         (snd (Scan bs0 b)).
Proof.
  destruct (Scan_orderly bs0 b) as (n & _ & Hall).
  eapply Forall_impl; [|exact Hall].
  intros c (_ & _ & f & _ & Hlen & _ & Hargs). rewrite Hargs. split.
  - intros Hnil.
    assert (H : length (skipn 1 (asciiByteFields (line c) [])) = 0)
      by (rewrite Hnil; reflexivity).
    rewrite length_skipn in H. lia.
  - apply Forall_skipn_bytes.
    apply (fields_more.Runs_good (line c)). apply fields_more.fields_Runs.
Qed.

(** The test of the scanner: two scans of the same input with the same
    scanner, each calling [foo] with the field [123]. *)
Example TestScanner_calls :
  snd (Scan (NewBufferScanner (mkbuf 512) [lf_foo]) fooBar) = [fooCall] /\
  snd (Scan (fst (Scan (NewBufferScanner (mkbuf 512) [lf_foo]) fooBar)) fooBar)
  = [fooCall].
Proof. split; vm_compute; reflexivity. Qed.

(** X19.  The line reader drops a carriage return at the end of a line; the
    fields are the same with it or without, a carriage return being
    white space. *)
Theorem fields_dropCR (ln : bytes) :
  asciiByteFields (bufio.dropCR ln) [] = asciiByteFields ln [].
Proof.
  unfold bufio.dropCR.
  destruct ((0 <? length ln)
            && Byte.eqb (nth (length ln - 1) ln x00) x0d) eqn:E; [|reflexivity].
  apply andb_true_iff in E. destruct E as [Hlen Hcr].
  apply Nat.ltb_lt in Hlen. apply Byte.byte_dec_bl in Hcr.
  rewrite slice_0.
  assert (Hsplit : ln = firstn (length ln - 1) ln ++ [x0d]).
  { rewrite <- (firstn_skipn (length ln - 1) ln) at 1. f_equal.
    pose proof (length_skipn (length ln - 1) ln) as Hl.
    destruct (skipn (length ln - 1) ln) as [|y [|z tl]] eqn:Es;
      try (simpl in Hl; lia).
    f_equal. rewrite <- Hcr.
    rewrite <- (firstn_skipn (length ln - 1) ln) at 2.
    rewrite app_nth2 by (rewrite length_firstn; lia).
    rewrite length_firstn, Nat.min_l, Nat.sub_diag, Es by lia. reflexivity. }
  transitivity (asciiByteFields (firstn (length ln - 1) ln ++ [x0d]) []);
    [|rewrite <- Hsplit; reflexivity].
  symmetry. apply fields_more.Runs_fields.
  rewrite <- (app_nil_r (asciiByteFields (firstn (length ln - 1) ln) [])).
  apply fields_more.Runs_app_space.
  - apply fields_more.fields_Runs.
  - unfold IsSpace. auto 7.
  - constructor. constructor.
Qed.

(** The scan of [BenchmarkScannerXfs]: all eighteen [lineFunc]s are
    called, in order, on the lines that bear their names, and every
    field passed is a string of digits, as [naiveAtoi] wants. *)
Example xfs_scan :
  map reg (snd (Scan (NewBufferScanner (mkbuf 4096) xfsLineFuncs) xfsLiteral))
  = seq 0 18 /\
  map lineNo (snd (Scan (NewBufferScanner (mkbuf 4096) xfsLineFuncs) xfsLiteral))
  = xfsLineNos /\
  forallb (fun c => forallb (forallb isDigit) (args c))
          (snd (Scan (NewBufferScanner (mkbuf 4096) xfsLineFuncs) xfsLiteral))
  = true.
Proof. repeat split; vm_compute; reflexivity. Qed.

End scan_more.
